(** * EDUTRACK: guided-format quiz parser and QTI serializer

    A shallow embedding of [src/EDUTRACK.py]: the function
    [parse_guided_format], which reads question records out of free text,
    and the function [create_qti_bytes], which builds the QTI element tree
    for those records.

    Conventions of the embedding.
    - A Python [str] is a [list ascii]; a character is read as the Unicode
      code point of the same number, so the texts covered are those over
      U+0000..U+00FF.  That range contains the middle dot U+00B7 of the
      bulleted option style, and on it [str.lower] keeps the length of a
      string, which the slicing [line[len(prefix):]] relies on.
    - The regular expressions of the program are a closed set (the patterns
      written in the two functions and the values of [q_sep_map] and
      [opt_regex_map]); each one is embedded as the function that the
      pattern computes under Python's [re] semantics, next to the pattern it
      comes from.
    - [raise ValueError(msg)] is the constructor [Raise msg] of [result].
    - The [lxml] element tree is a first-order tree [Element]; the final
      [tree.write] to bytes is the library's printer and is not embedded.
      [lxml] refuses a string that holds NUL or another control
      character.  [Qti.item] and [Qti.create_qti_bytes] are the tree that
      the function builds when every string is accepted; [Lxml.item] and
      [Lxml.create_qti_bytes] are the function with its refusals, raising
      where the source does.
    - [points_per_question] is a float that only occurs as
      [str(points_per_question)]; that string is the parameter [points]. *)

From Stdlib Require Import Ascii String Bool Arith Lia List.
From Stdlib Require DecimalNat DecimalString.
Import ListNotations.

Local Open Scope list_scope.
Local Open Scope bool_scope.

(** ** Python strings *)
Module PyStr.

Definition str := list ascii.

(** String literals of the source. *)
Definition lit (s : string) : str := list_ascii_of_string s.

Definition code (c : ascii) : nat := nat_of_ascii c.

Definition chr (n : nat) : ascii := ascii_of_nat n.

Definition NL : ascii := chr 10.
Definition STAR : ascii := chr 42.
Definition RPAREN : ascii := chr 41.
Definition COLON : ascii := chr 58.
Definition DQUOTE : ascii := chr 34.

(** [str.isspace] on one character; the same class is the [\s] of [re] for
    [str] patterns: TAB..CR, FS..US, SPACE, NEL and NBSP. *)
Definition isspace (c : ascii) : bool :=
  let n := code c in
  ((9 <=? n) && (n <=? 13)) || ((28 <=? n) && (n <=? 32))
  || (n =? 133) || (n =? 160).

(** The [\d] of [re]: the decimal digits. *)
Definition isdecimal (c : ascii) : bool :=
  let n := code c in (48 <=? n) && (n <=? 57).

(** [str.lower] on one character: A..Z and the capital letters
    U+00C0..U+00DE except the multiplication sign U+00D7. *)
Definition lower_char (c : ascii) : ascii :=
  let n := code c in
  if ((65 <=? n) && (n <=? 90))
     || ((192 <=? n) && (n <=? 222) && negb (n =? 215))
  then chr (n + 32) else c.

Definition lower (s : str) : str := map lower_char s.

(** The longest suffix that does not start with a character of class [p]. *)
Fixpoint drop_while (p : ascii -> bool) (s : str) : str :=
  match s with
  | [] => []
  | c :: r => if p c then drop_while p r else s
  end.

Definition lstrip (s : str) : str := drop_while isspace s.
Definition rstrip (s : str) : str := rev (drop_while isspace (rev s)).

(** [s.strip()] *)
Definition strip (s : str) : str := rstrip (lstrip s).

(** No white space at the start, respectively at the end. *)
Definition starts_clean (s : str) : Prop :=
  match s with
  | [] => True
  | c :: _ => isspace c = false
  end.

Definition ends_clean (s : str) : Prop := starts_clean (rev s).

(** [s.strip(ch)] for a one-character argument. *)
Definition strip_chars (ch : ascii) (s : str) : str :=
  rev (drop_while (Ascii.eqb ch) (rev (drop_while (Ascii.eqb ch) s))).

(** [s.startswith(p)] *)
Fixpoint startswith (s p : str) : bool :=
  match p, s with
  | [], _ => true
  | _ :: _, [] => false
  | a :: p', b :: s' => Ascii.eqb a b && startswith s' p'
  end.

(** [s[n:]] *)
Definition slice_from (n : nat) (s : str) : str := skipn n s.

Definition push_head (c : ascii) (l : list str) : list str :=
  match l with
  | [] => [[c]]
  | h :: t => (c :: h) :: t
  end.

(** [s.split(sep)] for a one-character separator. *)
Fixpoint split (sep : ascii) (s : str) : list str :=
  match s with
  | [] => [[]]
  | c :: r => if Ascii.eqb c sep then [] :: split sep r
              else push_head c (split sep r)
  end.

(** [a == b] *)
Fixpoint str_eqb (a b : str) : bool :=
  match a, b with
  | [], [] => true
  | x :: a', y :: b' => Ascii.eqb x y && str_eqb a' b'
  | _, _ => false
  end.

(** Truth value of a string: [not s] holds of the empty string. *)
Definition is_empty (s : str) : bool :=
  match s with [] => true | _ :: _ => false end.

(** [str(n)] and [f"{n}"] for a non-negative integer. *)
Definition str_of_nat (n : nat) : str :=
  lit (DecimalString.NilZero.string_of_uint (Nat.to_uint n)).

End PyStr.
Import PyStr.

(** ** The regular expressions of the program *)
Module Re.

(** The character class [[A-D]]. *)
Definition is_upper_AD (c : ascii) : bool :=
  let n := code c in (65 <=? n) && (n <=? 68).

(** The character class [[a-d]]. *)
Definition is_lower_ad (c : ascii) : bool :=
  let n := code c in (97 <=? n) && (n <=? 100).

(** The character class [[A-Da-d1-9]]. *)
Definition is_marker_char (c : ascii) : bool :=
  let n := code c in
  is_upper_AD c || is_lower_ad c || ((49 <=? n) && (n <=? 57)).

(** [re.sub(r'^[A-Da-d1-9]+\)\s*', '', s)]: the marker-stripping rule.
    The greedy run of class characters must be followed by [)]: a shorter
    run is followed by a class character, so backtracking finds nothing
    more.  The match is anchored at the start, so it is replaced once. *)
Definition strip_marker (s : str) : str :=
  match s with
  | c :: r =>
      if is_marker_char c then
        match drop_while is_marker_char r with
        | p :: r' => if Ascii.eqb p RPAREN then drop_while isspace r' else s
        | [] => s
        end
      else s
  | [] => s
  end.

(** [re.sub(r'^\*+', '', s)] *)
Definition strip_stars (s : str) : str := drop_while (Ascii.eqb STAR) s.

Definition has_newline (s : str) : bool := existsb (Ascii.eqb NL) s.

(** [s] without its last two characters when these are two asterisks. *)
Definition chop_bold_end (s : str) : option str :=
  match rev s with
  | a :: b :: m => if Ascii.eqb a STAR && Ascii.eqb b STAR
                   then Some (rev m) else None
  | _ => None
  end.

(** [re.sub(r'^\*\*(.*?)\*\*$', r'\1', s)]: a string wrapped in two pairs of
    asterisks is replaced by what lies between them.  [.] does not match a
    newline, and [$] matches at the end of the string or before a newline
    that ends it. *)
Definition unbold (s : str) : str :=
  match s with
  | a :: b :: r =>
      if Ascii.eqb a STAR && Ascii.eqb b STAR then
        let (body, tail) :=
          match rev r with
          | c :: m => if Ascii.eqb c NL then (rev m, [NL]) else (r, [])
          | [] => (r, [])
          end in
        match chop_bold_end body with
        | Some mid => if has_newline mid then s else mid ++ tail
        | None => s
        end
      else s
  | _ => s
  end.

(** [Some r] when [s] is [p] followed by [r]. *)
Fixpoint strip_prefix (p s : str) : option str :=
  match p, s with
  | [], _ => Some s
  | _ :: _, [] => None
  | a :: p', b :: s' => if Ascii.eqb a b then strip_prefix p' s' else None
  end.

(** What follows a match of [\d+:] at the start of [s]. *)
Definition after_number_colon (s : str) : option str :=
  match s with
  | d :: r =>
      if isdecimal d then
        match drop_while isdecimal r with
        | c :: r' => if Ascii.eqb c COLON then Some r' else None
        | [] => None
        end
      else None
  | [] => None
  end.

(** [re.sub(r'^Question \d+:', '', s)] *)
Definition strip_question_label (s : str) : str :=
  match strip_prefix (lit "Question ") s with
  | Some r => match after_number_colon r with
              | Some r' => r'
              | None => s
              end
  | None => s
  end.

(** The values of [opt_regex_map]. *)
Inductive OptRegex : Type :=
| UpperParen     (* 'A)'   : r'^[A-D]\)'          *)
| LowerParen     (* 'a)'   : r'^[a-d]\)'          *)
| BulletUpper    (* '. A)' with the dot U+00B7 : r'^\u00b7\s[A-D]\)' *)
| DigitParen.    (* '1)'   : r'^\d+\)'            *)

(** [re.match(opt_regex, s)] as a truth value. *)
Definition re_match (r : OptRegex) (s : str) : bool :=
  match r with
  | UpperParen =>
      match s with
      | a :: b :: _ => is_upper_AD a && Ascii.eqb b RPAREN
      | _ => false
      end
  | LowerParen =>
      match s with
      | a :: b :: _ => is_lower_ad a && Ascii.eqb b RPAREN
      | _ => false
      end
  | BulletUpper =>
      match s with
      | m :: w :: a :: b :: _ =>
          (code m =? 183) && isspace w && is_upper_AD a && Ascii.eqb b RPAREN
      | _ => false
      end
  | DigitParen =>
      match s with
      | d :: r' =>
          isdecimal d &&
          match drop_while isdecimal r' with
          | b :: _ => Ascii.eqb b RPAREN
          | [] => false
          end
      | [] => false
      end
  end.

(** The values of [q_sep_map]. *)
Inductive QSep : Type :=
| Bold            (* 'bold'     : a newline, then a lookahead for two asterisks *)
| QuestionLabel   (* 'question' : r'\n(?=Question\s+\d+:)'   *)
| BlankLine.      (* 'newline'  : r'\n\s*\n'                 *)

(** The lookahead of the 'bold' separator: two asterisks follow. *)
Definition ahead_bold (s : str) : bool := startswith s [STAR; STAR].

(** The lookahead [(?=Question\s+\d+:)]. *)
Definition ahead_question (s : str) : bool :=
  match strip_prefix (lit "Question") s with
  | Some (w :: r) =>
      isspace w &&
      match after_number_colon (drop_while isspace r) with
      | Some _ => true
      | None => false
      end
  | _ => false
  end.

(** Splitting at every newline that the lookahead [ahead] accepts; the
    newline is consumed, the text looked at stays in the next piece. *)
Fixpoint split_ahead (ahead : str -> bool) (s : str) : list str :=
  match s with
  | [] => [[]]
  | c :: r => if Ascii.eqb c NL && ahead r then [] :: split_ahead ahead r
              else push_head c (split_ahead ahead r)
  end.

(** The number of characters that [\s*\n] consumes at the start of [s]:
    the longest run of white space that ends in a newline. *)
Fixpoint gap_length (s : str) : option nat :=
  match s with
  | [] => None
  | c :: r =>
      if isspace c then
        match gap_length r with
        | Some m => Some (S m)
        | None => if Ascii.eqb c NL then Some 1 else None
        end
      else None
  end.

(** Splitting at the matches of [\n\s*\n], leftmost first; [skip] counts the
    characters of the current match that are still to be consumed. *)
Fixpoint split_blank (skip : nat) (s : str) : list str :=
  match s with
  | [] => [[]]
  | c :: r =>
      match skip with
      | S k => split_blank k r
      | O =>
          if Ascii.eqb c NL then
            match gap_length r with
            | Some m => [] :: split_blank m r
            | None => push_head c (split_blank 0 r)
            end
          else push_head c (split_blank 0 r)
      end
  end.

(** [re.split(q_sep, s)] *)
Definition re_split (q : QSep) (s : str) : list str :=
  match q with
  | Bold => split_ahead ahead_bold s
  | QuestionLabel => split_ahead ahead_question s
  | BlankLine => split_blank 0 s
  end.

End Re.
Import Re.

(** ** The format configuration tables of [main] *)
Module Config.

(** [q_sep_map[key]]; [None] is the [KeyError] of a key outside the table. *)
Definition q_sep_map (key : str) : option QSep :=
  if str_eqb key (lit "bold") then Some Bold
  else if str_eqb key (lit "question") then Some QuestionLabel
  else if str_eqb key (lit "newline") then Some BlankLine
  else None.


End Config.

(** ** [parse_guided_format] *)
Module Parser.

(** The outcome of code that may raise [ValueError]. *)
Inductive result (A : Type) : Type :=
| Ok (a : A)
| Raise (msg : str).
Arguments Ok {A} a.
Arguments Raise {A} msg.

(** The dictionary appended to [questions], with its four keys. *)
Record Question : Type := mkQuestion {
  question : str;
  options : list str;
  answer : str;
  explanation : str
}.

(** The locals [options], [answer] and [explanation] of one block;
    [None] is Python's [None]. *)
Record Scan : Type := mkScan {
  s_options : list str;
  s_answer : option str;
  s_explanation : option str
}.

Definition scan_init : Scan := mkScan [] None None.

(** [not v] for a local that is [None] or a string. *)
Definition falsy (v : option str) : bool :=
  match v with
  | None => true
  | Some s => is_empty s
  end.

(** The string held by a local known to be set. *)
Definition held (v : option str) : str :=
  match v with
  | None => []
  | Some s => s
  end.

Definition quoted (s : str) : str := DQUOTE :: s ++ [DQUOTE].

(** The three per-question messages and the structural one. *)
Definition msg_options (idx : nat) (question_text : str) : str :=
  lit "Not enough options in question #" ++ str_of_nat idx
  ++ lit ": " ++ quoted question_text.

Definition msg_answer (idx : nat) (question_text : str) : str :=
  lit "Missing answer in question #" ++ str_of_nat idx
  ++ lit ": " ++ quoted question_text.

Definition msg_explanation (idx : nat) (question_text : str) : str :=
  lit "Missing explanation in question #" ++ str_of_nat idx
  ++ lit ": " ++ quoted question_text.

Definition msg_no_questions : str :=
  lit "No valid questions found. Check your format settings.".

(** The handler [except Exception as e] re-raises with this prefix. *)
Definition msg_failed (e : str) : str :=
  lit "Guided format parsing failed: " ++ e.

(** "Clean question line": the two substitutions and three strips applied
    to [lines[0]]. *)
Definition clean_question (first : str) : str :=
  strip (strip_chars STAR (strip
    (strip_question_label (unbold (strip first))))).

Section Block.

Variable opt_regex : OptRegex.
Variables answer_prefix explanation_prefix : str.

(** The body of [for line in lines[1:]]. *)
Definition scan_line (st : Scan) (raw : str) : Scan :=
  let line := strip raw in
  if is_empty line then st
  else
    let is_starred := startswith line [STAR] in
    let clean_line := strip (strip_stars line) in
    if re_match opt_regex clean_line then
      mkScan (s_options st ++ [clean_line])
             (if is_starred then Some (strip (strip_marker clean_line))
              else s_answer st)
             (s_explanation st)
    else if startswith (lower line) (lower answer_prefix) then
      let answer_line := strip (slice_from (length answer_prefix) line) in
      mkScan (s_options st)
             (Some (strip (strip_marker answer_line)))
             (s_explanation st)
    else if startswith (lower line) (lower explanation_prefix) then
      mkScan (s_options st)
             (s_answer st)
             (Some (strip (slice_from (length explanation_prefix) line)))
    else if is_starred then
      mkScan (s_options st ++ [clean_line]) (Some clean_line)
             (s_explanation st)
    else st.

Definition scan_lines (lines : list str) : Scan :=
  fold_left scan_line lines scan_init.

(** The three checks that follow the scan of a block, in their order. *)
Definition validate (idx : nat) (question_text : str) (st : Scan)
  : result Question :=
  if length (s_options st) <? 2 then Raise (msg_options idx question_text)
  else if falsy (s_answer st) then Raise (msg_answer idx question_text)
  else if falsy (s_explanation st)
  then Raise (msg_explanation idx question_text)
  else Ok (mkQuestion question_text (s_options st)
                      (held (s_answer st)) (held (s_explanation st))).

(** One turn of [for idx, block in enumerate(question_blocks, start=1)]:
    [Ok None] is [continue], [Ok (Some q)] appends [q]. *)
Definition parse_block (idx : nat) (block : str)
  : result (option Question) :=
  let block := strip block in
  if is_empty block then Ok None
  else
    match split NL block with
    | [] => Ok None
    | first :: rest =>
        match validate idx (clean_question first) (scan_lines rest) with
        | Raise e => Raise e
        | Ok q => Ok (Some q)
        end
    end.

(** The loop over the blocks, from index [idx], appending to [questions]. *)
Fixpoint parse_blocks (blocks : list str) (idx : nat)
  (questions : list Question) : result (list Question) :=
  match blocks with
  | [] => Ok questions
  | block :: rest =>
      match parse_block idx block with
      | Raise e => Raise e
      | Ok None => parse_blocks rest (S idx) questions
      | Ok (Some q) => parse_blocks rest (S idx) (questions ++ [q])
      end
  end.

End Block.

(** The body of the [try]: split, loop, then the check [if not questions]. *)
Definition parse_body (text : str) (q_sep : QSep) (opt_regex : OptRegex)
  (answer_prefix explanation_prefix : str) : result (list Question) :=
  let question_blocks := re_split q_sep (strip text) in
  match parse_blocks opt_regex answer_prefix explanation_prefix
                     question_blocks 1 [] with
  | Raise e => Raise e
  | Ok [] => Raise msg_no_questions
  | Ok questions => Ok questions
  end.

Definition parse_guided_format (text : str) (q_sep : QSep)
  (opt_regex : OptRegex) (answer_prefix explanation_prefix : str)
  : result (list Question) :=
  match parse_body text q_sep opt_regex answer_prefix explanation_prefix with
  | Raise e => Raise (msg_failed e)
  | Ok questions => Ok questions
  end.

End Parser.
Import Parser.

(** ** [create_qti_bytes] *)
Module Qti.

(** An [lxml] element: tag, attributes in the order given, text, children
    in the order of the [SubElement] calls. *)
#[warnings="-register-all"]
Inductive Element : Type :=
| Elem (tag : str) (attrib : list (str * str)) (text : option str)
       (children : list Element).

Definition tag (e : Element) : str :=
  match e with Elem t _ _ _ => t end.
Definition attrib (e : Element) : list (str * str) :=
  match e with Elem _ a _ _ => a end.
Definition text (e : Element) : option str :=
  match e with Elem _ _ x _ => x end.
Definition children (e : Element) : list Element :=
  match e with Elem _ _ _ c => c end.

(** [enumerate(l, start)] *)
Fixpoint enumerate {A : Type} (start : nat) (l : list A) : list (nat * A) :=
  match l with
  | [] => []
  | x :: r => (start, x) :: enumerate (S start) r
  end.

(** The text shown for an option: the marker-stripping rule, then
    [strip]. *)
Definition clean_option (option : str) : str := strip (strip_marker option).

(** The condition of the generator in [next(...)]. *)
Definition answer_matches (q : Question) (opt : str) : bool :=
  str_eqb (lower (strip (answer q))) (lower (clean_option opt)).

(** [next((idx for idx, opt in ... if cond), default)] *)
Fixpoint next_index (cond : str -> bool) (l : list (nat * str))
  (default : nat) : nat :=
  match l with
  | [] => default
  | (idx, opt) :: r => if cond opt then idx else next_index cond r default
  end.

(** The local [correct_option_id].  Nothing under the [try] raises on a
    record whose fields are strings, so the handler is never entered. *)
Definition correct_option_id (q : Question) : nat :=
  next_index (answer_matches q) (enumerate 1 (options q)) 1.

Definition response_label (option_id : nat) (option : str) : Element :=
  Elem (lit "response_label")
       [(lit "ident", lit "option" ++ str_of_nat option_id)] None
       [Elem (lit "material") [] None
          [Elem (lit "mattext") [] (Some (clean_option option)) []]].

Definition itemfeedback (ident : str) (q : Question) : Element :=
  Elem (lit "itemfeedback") [(lit "ident", ident)] None
       [Elem (lit "material") [] None
          [Elem (lit "mattext") [] (Some (explanation q)) []]].

Definition displayfeedback (linkrefid : str) : Element :=
  Elem (lit "displayfeedback")
       [(lit "feedbacktype", lit "Response"); (lit "linkrefid", linkrefid)]
       None [].

(** The element that the body of [for i, q in enumerate(questions)]
    builds when [lxml] accepts every string it is handed; the body with
    its refusals is [Lxml.item].  [points] is
    [str(points_per_question)]. *)
Definition item (i : nat) (q : Question) (points : str) : Element :=
  let presentation :=
    Elem (lit "presentation") [] None
      [Elem (lit "flow") [] None
         [Elem (lit "material") [] None
            [Elem (lit "mattext") [] (Some (question q)) []];
          Elem (lit "response_lid")
            [(lit "ident", lit "response1");
             (lit "rcardinality", lit "Single")] None
            [Elem (lit "render_choice") [] None
               (map (fun p => response_label (fst p) (snd p))
                    (enumerate 1 (options q)))]]] in
  let correct_resp :=
    Elem (lit "respcondition") [(lit "title", lit "correct")] None
      [Elem (lit "conditionvar") [] None
         [Elem (lit "varequal") [(lit "respident", lit "response1")]
            (Some (lit "option" ++ str_of_nat (correct_option_id q))) []];
       Elem (lit "setvar") [(lit "action", lit "Set")] (Some points) [];
       displayfeedback (lit "feedback_correct")] in
  let incorrect_resp :=
    Elem (lit "respcondition") [(lit "title", lit "incorrect")] None
      [Elem (lit "conditionvar") [] None [];
       Elem (lit "setvar") [(lit "action", lit "Set")] (Some (lit "0")) [];
       displayfeedback (lit "feedback_incorrect")] in
  let resprocessing :=
    Elem (lit "resprocessing") [] None
      [Elem (lit "outcomes") [] None
         [Elem (lit "decvar")
            [(lit "varname", lit "SCORE"); (lit "vartype", lit "Decimal");
             (lit "default", points)] None []];
       correct_resp;
       incorrect_resp] in
  Elem (lit "item")
    [(lit "ident", lit "q" ++ str_of_nat (i + 1));
     (lit "title", lit "Question " ++ str_of_nat (i + 1))] None
    [presentation; resprocessing;
     itemfeedback (lit "feedback_correct") q;
     itemfeedback (lit "feedback_incorrect") q].

(** The root element [qti] that is written out when [lxml] accepts every
    string, one item per question; the function with its refusals is
    [Lxml.create_qti_bytes]. *)
Definition create_qti_bytes (questions : list Question) (points : str)
  : Element :=
  Elem (lit "questestinterop") [] None
    (map (fun p => item (fst p) (snd p) points) (enumerate 0 questions)).

(** *** Reading the tree back *)

(** [e.get(name)] *)
Fixpoint lookup (name : str) (a : list (str * str)) : option str :=
  match a with
  | [] => None
  | (k, v) :: r => if str_eqb k name then Some v else lookup name r
  end.

Definition get (e : Element) (name : str) : option str :=
  lookup name (attrib e).

(** [e.findall(tag)]: the children with that tag, in document order. *)
Definition findall (e : Element) (t : str) : list Element :=
  filter (fun c => str_eqb (tag c) t) (children e).

(** [e.find(tag)] *)
Definition find_child (e : Element) (t : str) : option Element :=
  hd_error (findall e t).

Definition bind {A B : Type} (x : option A) (f : A -> option B) : option B :=
  match x with
  | Some a => f a
  | None => None
  end.

Notation "x >>= f" := (bind x f) (at level 50, left associativity).

Definition has_title (t : str) (e : Element) : bool :=
  match get e (lit "title") with
  | Some v => str_eqb v t
  | None => false
  end.

(** The [respcondition] of an item that carries the given title. *)
Definition respcondition (it : Element) (title : str) : option Element :=
  find_child it (lit "resprocessing") >>= fun rp =>
  hd_error (filter (has_title title) (findall rp (lit "respcondition"))).

(** The text of the [varequal] under the condition titled "correct". *)
Definition correct_varequal_text (it : Element) : option str :=
  respcondition it (lit "correct") >>= fun c =>
  find_child c (lit "conditionvar") >>= fun cv =>
  find_child cv (lit "varequal") >>= text.

(** The response choices of an item, in document order. *)
Definition response_labels (it : Element) : list Element :=
  match find_child it (lit "presentation") >>= fun p =>
        find_child p (lit "flow") >>= fun f =>
        find_child f (lit "response_lid") >>= fun r =>
        find_child r (lit "render_choice") with
  | Some rc => findall rc (lit "response_label")
  | None => []
  end.

(** The material text held by a response choice. *)
Definition material_text (rl : Element) : option str :=
  find_child rl (lit "material") >>= fun m =>
  find_child m (lit "mattext") >>= text.

End Qti.
Import Qti.

(** ** [create_qti_bytes], with the refusals of [lxml] *)
Module Lxml.

(** The characters [lxml] accepts in a text or an attribute value
    ([xmlIsChar_ch] for the code points below U+0080, every code point
    from there to U+00FF): TAB, LF, CR and everything from U+0020 on.
    NUL and the other control characters below U+0020 are refused. *)
Definition valid_char (c : ascii) : bool :=
  let n := code c in
  (n =? 9) || (n =? 10) || (n =? 13) || (32 <=? n).

Definition xml_compatible (s : str) : bool := forallb valid_char s.

(** The message of the [ValueError] that [lxml] raises for a refused
    string. *)
Definition msg_not_xml : str :=
  lit "All strings must be XML compatible: Unicode or ASCII, no NULL bytes or control characters".

(** A string handed to [lxml], as the value of a keyword argument of
    [SubElement] or in an assignment to [.text]. *)
Definition accept (s : str) : result str :=
  if xml_compatible s then Ok s else Raise msg_not_xml.

Definition bind {A B : Type} (x : result A) (f : A -> result B)
  : result B :=
  match x with
  | Ok a => f a
  | Raise e => Raise e
  end.

Notation "x <- c ;; k" := (bind c (fun x => k))
  (at level 61, c at next level, right associativity).

(** A [for] loop that builds one element per turn and stops at the first
    turn that raises. *)
Fixpoint for_each {A B : Type} (f : A -> result B) (l : list A)
  : result (list B) :=
  match l with
  | [] => Ok []
  | x :: r => y <- f x ;; ys <- for_each f r ;; Ok (y :: ys)
  end.

(** The body of [for option_id, option in enumerate(q['options'], 1)]. *)
Definition response_label (option_id : nat) (option : str)
  : result Element :=
  ident <- accept (lit "option" ++ str_of_nat option_id) ;;
  mattext_text <- accept (clean_option option) ;;
  Ok (Elem (lit "response_label") [(lit "ident", ident)] None
        [Elem (lit "material") [] None
           [Elem (lit "mattext") [] (Some mattext_text) []]]).

(** The [try] around the choice of the correct option: were the
    assignment to [varequal.text] to raise, the handler would assign
    "option1". *)
Definition varequal_text (q : Question) : str :=
  match accept (lit "option" ++ str_of_nat (correct_option_id q)) with
  | Ok t => t
  | Raise _ => lit "option1"
  end.

(** The body of [for i, q in enumerate(questions)], statement by
    statement: every computed string goes through [accept] where the
    source hands it to [lxml], and the first refusal ends the function.
    The tags and attribute values written as literals in the source hold
    accepted characters only.  [points] is [str(points_per_question)]. *)
Definition item (i : nat) (q : Question) (points : str) : result Element :=
  ident <- accept (lit "q" ++ str_of_nat (i + 1)) ;;
  title <- accept (lit "Question " ++ str_of_nat (i + 1)) ;;
  question_text <- accept (question q) ;;
  labels <- for_each (fun p => response_label (fst p) (snd p))
                     (enumerate 1 (options q)) ;;
  default <- accept points ;;
  let correct_text := varequal_text q in
  score <- accept points ;;
  feedback_correct <- accept (explanation q) ;;
  feedback_incorrect <- accept (explanation q) ;;
  Ok (Elem (lit "item") [(lit "ident", ident); (lit "title", title)] None
        [Elem (lit "presentation") [] None
           [Elem (lit "flow") [] None
              [Elem (lit "material") [] None
                 [Elem (lit "mattext") [] (Some question_text) []];
               Elem (lit "response_lid")
                 [(lit "ident", lit "response1");
                  (lit "rcardinality", lit "Single")] None
                 [Elem (lit "render_choice") [] None labels]]];
         Elem (lit "resprocessing") [] None
           [Elem (lit "outcomes") [] None
              [Elem (lit "decvar")
                 [(lit "varname", lit "SCORE");
                  (lit "vartype", lit "Decimal");
                  (lit "default", default)] None []];
            Elem (lit "respcondition") [(lit "title", lit "correct")] None
              [Elem (lit "conditionvar") [] None
                 [Elem (lit "varequal") [(lit "respident", lit "response1")]
                    (Some correct_text) []];
               Elem (lit "setvar") [(lit "action", lit "Set")]
                 (Some score) [];
               displayfeedback (lit "feedback_correct")];
            Elem (lit "respcondition") [(lit "title", lit "incorrect")] None
              [Elem (lit "conditionvar") [] None [];
               Elem (lit "setvar") [(lit "action", lit "Set")]
                 (Some (lit "0")) [];
               displayfeedback (lit "feedback_incorrect")]];
         Elem (lit "itemfeedback") [(lit "ident", lit "feedback_correct")]
           None
           [Elem (lit "material") [] None
              [Elem (lit "mattext") [] (Some feedback_correct) []]];
         Elem (lit "itemfeedback") [(lit "ident", lit "feedback_incorrect")]
           None
           [Elem (lit "material") [] None
              [Elem (lit "mattext") [] (Some feedback_incorrect) []]]]).

(** [create_qti_bytes]: the root element that is written out, or the
    [ValueError] of the first string that [lxml] refuses. *)
Definition create_qti_bytes (questions : list Question) (points : str)
  : result Element :=
  items <- for_each (fun p => item (fst p) (snd p) points)
                    (enumerate 0 questions) ;;
  Ok (Elem (lit "questestinterop") [] None items).

(** The strings of a record that reach [lxml]: the question text, the
    text shown for each option and the explanation.  The answer is only
    compared, never written. *)
Definition record_accepted (q : Question) : bool :=
  xml_compatible (question q)
  && forallb (fun o => xml_compatible (clean_option o)) (options q)
  && xml_compatible (explanation q).

End Lxml.

(** ** The worked example of the specification *)
Module Example.

(** ["\n".join(lines)] *)
Fixpoint join_lines (lines : list str) : str :=
  match lines with
  | [] => []
  | [l] => l
  | l :: r => l ++ NL :: join_lines r
  end.

Definition text : str :=
  join_lines [lit "Question 1: What is 2+2?";
              lit "a) 3";
              lit "*b) 4";
              lit "c) 5";
              lit "Answer: b) 4";
              lit "Explanation: 2+2 is 4."].

Definition record : Question :=
  mkQuestion (lit "What is 2+2?")
             [lit "a) 3"; lit "b) 4"; lit "c) 5"]
             (lit "4")
             (lit "2+2 is 4.").

(** The same question with the answer line moved above the options. *)
Definition answer_first : str :=
  join_lines [lit "Question 1: What is 2+2?";
              lit "Answer: a) 3";
              lit "a) 3";
              lit "*b) 4";
              lit "c) 5";
              lit "Explanation: 2+2 is 4."].

(** A record whose answer equals two options once case is ignored. *)
Definition twice : Question :=
  mkQuestion (lit "Which?")
             [lit "a) no"; lit "b) Yes"; lit "c) yes"]
             (lit "YES")
             (lit "Both.").

(** A record whose answer equals no option. *)
Definition nowhere : Question :=
  mkQuestion (lit "Which?")
             [lit "a) no"; lit "b) yes"]
             (lit "maybe")
             (lit "Neither.").

End Example.

(** ** Vocabulary of the statements *)
Module Lines.

Section Classes.

Variable opt_regex : OptRegex.
Variables answer_prefix explanation_prefix : str.

(** The locals [line], [clean_line] and [is_starred] of the loop body. *)
Definition line_of (raw : str) : str := strip raw.
Definition clean_of (raw : str) : str := strip (strip_stars (strip raw)).
Definition is_starred (raw : str) : bool := startswith (strip raw) [STAR].

Definition is_blank (raw : str) : bool := is_empty (strip raw).

(** The four kinds of line, each with the guards of the branches above
    it negated. *)
Definition is_option_line (raw : str) : bool :=
  negb (is_blank raw) && re_match opt_regex (clean_of raw).

Definition has_answer_prefix (raw : str) : bool :=
  startswith (lower (line_of raw)) (lower answer_prefix).

Definition has_explanation_prefix (raw : str) : bool :=
  startswith (lower (line_of raw)) (lower explanation_prefix).

Definition is_answer_line (raw : str) : bool :=
  negb (is_blank raw) && negb (re_match opt_regex (clean_of raw))
  && has_answer_prefix raw.

Definition is_starred_unlabeled (raw : str) : bool :=
  negb (is_blank raw) && negb (re_match opt_regex (clean_of raw))
  && negb (has_answer_prefix raw) && negb (has_explanation_prefix raw)
  && is_starred raw.

(** The lines that assign the local [answer]. *)
Definition sets_answer (raw : str) : bool :=
  (is_option_line raw && is_starred raw)
  || is_answer_line raw
  || is_starred_unlabeled raw.

(** The value an answer line assigns: prefix cut off, stripped, marker
    stripped, stripped. *)
Definition answer_line_value (raw : str) : str :=
  strip (strip_marker (strip
    (slice_from (length answer_prefix) (line_of raw)))).

(** The value a line that sets the answer assigns: an answer line its
    value, a starred option its marker-stripped text, a starred unlabeled
    line its text. *)
Definition assigned_answer (raw : str) : str :=
  if is_answer_line raw then answer_line_value raw
  else if is_option_line raw then strip (strip_marker (clean_of raw))
  else clean_of raw.

(** The lines of a block, its question text and the outcome of its scan. *)
Definition block_lines (block : str) : list str := split NL (strip block).

Definition block_question_text (block : str) : str :=
  clean_question (hd [] (block_lines block)).

Definition block_scan (block : str) : Scan :=
  scan_lines opt_regex answer_prefix explanation_prefix
             (tl (block_lines block)).

(** A non-blank block that breaks one of the three requirements. *)
Definition violates (block : str) : bool :=
  negb (is_empty (strip block))
  && ((length (s_options (block_scan block)) <? 2)
      || falsy (s_answer (block_scan block))
      || falsy (s_explanation (block_scan block))).

(** [msg] is the message the block at 1-based position [idx] is rejected
    with: it names [idx] and the block's question text, and its wording
    is that of the first requirement the block breaks. *)
Definition violation_message (idx : nat) (block msg : str) : Prop :=
  let qt := block_question_text block in
  let st := block_scan block in
  (length (s_options st) < 2 /\ msg = msg_options idx qt)
  \/ (2 <= length (s_options st) /\ falsy (s_answer st) = true /\
      msg = msg_answer idx qt)
  \/ (2 <= length (s_options st) /\ falsy (s_answer st) = false /\
      falsy (s_explanation st) = true /\ msg = msg_explanation idx qt).

End Classes.

End Lines.
Import Lines.

(** ** Further vocabulary: blocks, lines and the tree *)
Module Blocks.

(** A string with a character that is not white space. *)
Definition has_ink (s : str) : bool :=
  existsb (fun c => negb (isspace c)) s.

Definition all_space (s : str) : bool := forallb isspace s.

Definition all_decimal (s : str) : bool := forallb isdecimal s.

(** The blocks the loop does not skip. *)
Definition nonblank (block : str) : bool := negb (is_empty (strip block)).

(** A record with another answer. *)
Definition with_answer (q : Question) (a : str) : Question :=
  mkQuestion (question q) (options q) a (explanation q).

Section Defs.

Variable opt_regex : OptRegex.
Variables answer_prefix explanation_prefix : str.

(** The lines that append to the local [options]: the first branch and
    the last branch of the chain. *)
Definition adds_option (raw : str) : bool :=
  is_option_line opt_regex raw
  || is_starred_unlabeled opt_regex answer_prefix explanation_prefix raw.

(** The lines that reach the third branch. *)
Definition is_explanation_line (raw : str) : bool :=
  negb (is_blank raw) && negb (re_match opt_regex (clean_of raw))
  && negb (has_answer_prefix answer_prefix raw)
  && has_explanation_prefix explanation_prefix raw.

(** The value an explanation line assigns. *)
Definition explanation_line_value (raw : str) : str :=
  strip (slice_from (length explanation_prefix) (line_of raw)).

(** The dictionary built from a block that passes the three checks. *)
Definition record_of (block : str) : Question :=
  let st := block_scan opt_regex answer_prefix explanation_prefix block in
  mkQuestion (block_question_text block) (s_options st)
             (held (s_answer st)) (held (s_explanation st)).

End Defs.

End Blocks.
Import Blocks.

(** ** The pure parts of [main] *)
Module App.

(** The local [is_correct] of the preview loop, which decides whether an
    option is shown with the check mark. *)
Definition is_correct (q : Question) (opt : str) : bool :=
  let clean_opt := strip (strip_marker opt) in
  str_eqb (lower (strip (answer q))) (lower (strip clean_opt)).

End App.

(** ** Reading links in the tree *)
Module Links.

Definition has_ident (v : str) (e : Element) : bool :=
  match get e (lit "ident") with
  | Some x => str_eqb x v
  | None => false
  end.

(** The [respcondition] elements of an item, in document order. *)
Definition respconditions (it : Element) : list Element :=
  match find_child it (lit "resprocessing") with
  | Some rp => findall rp (lit "respcondition")
  | None => []
  end.

(** The [linkrefid] of the [displayfeedback] of a condition. *)
Definition linkrefid_of (rc : Element) : option str :=
  find_child rc (lit "displayfeedback") >>= fun d => get d (lit "linkrefid").

(** The text of the [setvar] of a condition. *)
Definition setvar_text (rc : Element) : option str :=
  find_child rc (lit "setvar") >>= text.

(** The [itemfeedback] elements of an item with the given identifier. *)
Definition itemfeedbacks (it : Element) (ident : str) : list Element :=
  filter (has_ident ident) (findall it (lit "itemfeedback")).

(** The identifiers of a list of elements. *)
Definition idents (l : list Element) : list (option str) :=
  map (fun e => get e (lit "ident")) l.

(** The question text of an item. *)
Definition question_material (it : Element) : option str :=
  find_child it (lit "presentation") >>= fun p =>
  find_child p (lit "flow") >>= fun f =>
  find_child f (lit "material") >>= fun m =>
  find_child m (lit "mattext") >>= text.

End Links.
Import Links.

(** * Properties *)

(** ** Worked examples *)


(** C4, as stated, fails: with the blank-line separator the example input
    does not make the parser raise at all. *)
Lemma blank_line_separator_does_not_fail :
  ~ exists e,
      parse_guided_format Example.text BlankLine LowerParen
        (lit "Answer:") (lit "Explanation:") = Raise e.
Proof.
  intros [e H]. vm_compute in H. discriminate H.
Qed.

(** C4, amended: with the blank-line separator (the value of [q_sep_map]
    at "newline") the example input has no blank-line gap, so the split
    leaves it as one block, and that block parses to the same single
    record as under the question-label separator. *)
Theorem blank_line_separator_single_block :
  Config.q_sep_map (lit "newline") = Some BlankLine /\
  re_split BlankLine (strip Example.text) = [Example.text] /\
  parse_guided_format Example.text BlankLine LowerParen
    (lit "Answer:") (lit "Explanation:") = Ok [Example.record].
Proof.
  split; [reflexivity|]. split; vm_compute; reflexivity.
Qed.

(** ** Facts about the string primitives *)

Lemma split_not_nil (sep : ascii) (s : str) : split sep s <> [].
Proof.
  induction s as [|c r IH]; simpl; [discriminate|].
  destruct (Ascii.eqb c sep); [discriminate|].
  destruct (split sep r); simpl; discriminate.
Qed.

Lemma is_empty_true (s : str) : is_empty s = true <-> s = [].
Proof. destruct s; simpl; split; congruence. Qed.

Lemma str_eqb_eq (a b : str) : str_eqb a b = true <-> a = b.
Proof.
  revert b; induction a as [|x a IH]; intros [|y b]; simpl;
    try (split; congruence).
  rewrite andb_true_iff, Ascii.eqb_eq, IH. split.
  - intros [-> ->]; reflexivity.
  - intros [= -> ->]; split; reflexivity.
Qed.

Lemma to_uint_not_nil (n : nat) : Nat.to_uint n <> Decimal.Nil.
Proof.
  assert (H : Nat.to_uint n = Decimal.unorm (Nat.to_uint n)).
  { rewrite <- DecimalNat.Unsigned.to_of, DecimalNat.Unsigned.of_to.
    reflexivity. }
  rewrite H. unfold Decimal.unorm.
  destruct (Decimal.nzhead (Nat.to_uint n)); discriminate.
Qed.

(** The decimal rendering of an index determines the index. *)
Lemma str_of_nat_inj (n m : nat) : str_of_nat n = str_of_nat m -> n = m.
Proof.
  unfold str_of_nat, lit. intro H.
  apply (f_equal string_of_list_ascii) in H.
  rewrite !string_of_list_ascii_of_string in H.
  apply (f_equal DecimalString.NilZero.uint_of_string) in H.
  rewrite !DecimalString.NilZero.usu in H by apply to_uint_not_nil.
  injection H as H. now apply DecimalNat.Unsigned.to_uint_inj.
Qed.

(** ** Facts about the block loop *)
Section ParserFacts.

Variable opt_regex : OptRegex.
Variables answer_prefix explanation_prefix : str.

Local Abbreviation scan_line' :=
  (scan_line opt_regex answer_prefix explanation_prefix).
Local Abbreviation scan_lines' :=
  (scan_lines opt_regex answer_prefix explanation_prefix).
Local Abbreviation parse_block' :=
  (parse_block opt_regex answer_prefix explanation_prefix).
Local Abbreviation parse_blocks' :=
  (parse_blocks opt_regex answer_prefix explanation_prefix).
Local Abbreviation block_scan' :=
  (block_scan opt_regex answer_prefix explanation_prefix).
Local Abbreviation violates' :=
  (violates opt_regex answer_prefix explanation_prefix).
Local Abbreviation violation_message' :=
  (violation_message opt_regex answer_prefix explanation_prefix).
Local Abbreviation sets_answer' :=
  (sets_answer opt_regex answer_prefix explanation_prefix).

Lemma parse_block_blank (idx : nat) (block : str) :
  strip block = [] -> parse_block' idx block = Ok None.
Proof. unfold parse_block. intros ->. reflexivity. Qed.

Lemma parse_block_validate (idx : nat) (block : str) :
  strip block <> [] ->
  parse_block' idx block =
  match validate idx (block_question_text block) (block_scan' block) with
  | Raise e => Raise e
  | Ok q => Ok (Some q)
  end.
Proof.
  intro Hne. unfold parse_block, block_question_text, block_scan, block_lines.
  destruct (strip block) as [|c r] eqn:E; [congruence|]. simpl is_empty.
  cbv iota.
  destruct (split NL (c :: r)) as [|first rest] eqn:S.
  - exfalso. exact (split_not_nil _ _ S).
  - reflexivity.
Qed.

(** What [validate] answers, check by check. *)
Lemma validate_cases (idx : nat) (qt : str) (st : Scan) :
  (length (s_options st) < 2 /\
   validate idx qt st = Raise (msg_options idx qt))
  \/ (2 <= length (s_options st) /\ falsy (s_answer st) = true /\
      validate idx qt st = Raise (msg_answer idx qt))
  \/ (2 <= length (s_options st) /\ falsy (s_answer st) = false /\
      falsy (s_explanation st) = true /\
      validate idx qt st = Raise (msg_explanation idx qt))
  \/ (2 <= length (s_options st) /\ falsy (s_answer st) = false /\
      falsy (s_explanation st) = false /\
      validate idx qt st =
        Ok (mkQuestion qt (s_options st) (held (s_answer st))
                       (held (s_explanation st)))).
Proof.
  unfold validate.
  destruct (length (s_options st) <? 2) eqn:E1.
  - apply Nat.ltb_lt in E1. left. split; [assumption|reflexivity].
  - apply Nat.ltb_ge in E1. right.
    destruct (falsy (s_answer st)) eqn:E2; [left; auto|right].
    destruct (falsy (s_explanation st)) eqn:E3; [left; auto|right; auto].
Qed.

(** A block that does not violate is skipped or yields a record. *)
Lemma parse_block_sound (idx : nat) (block : str) :
  violates' block = false ->
  parse_block' idx block = Ok None \/
  exists q, parse_block' idx block = Ok (Some q) /\
            2 <= length (options q) /\ answer q <> [] /\ explanation q <> [].
Proof.
  unfold violates. intro V.
  destruct (strip block) as [|c r] eqn:E.
  - left. now apply parse_block_blank.
  - right. rewrite parse_block_validate by congruence.
    simpl in V. apply orb_false_iff in V as [V V3].
    apply orb_false_iff in V as [V1 V2].
    destruct (validate_cases idx (block_question_text block)
                (block_scan' block))
      as [[H _]|[(_ & H & _)|[(_ & _ & H & _)|(H1 & H2 & H3 & ->)]]].
    + apply Nat.ltb_ge in V1. lia.
    + congruence.
    + congruence.
    + eexists; split; [reflexivity|]. simpl. repeat split.
      * exact H1.
      * destruct (s_answer (block_scan' block)) as [[|]|];
          simpl in *; congruence.
      * destruct (s_explanation (block_scan' block)) as [[|]|];
          simpl in *; congruence.
Qed.

(** A violating block raises, with the message of its first failed check. *)
Lemma parse_block_violation (idx : nat) (block : str) :
  violates' block = true ->
  exists msg,
    parse_block' idx block = Raise msg /\ violation_message' idx block msg.
Proof.
  unfold violates, violation_message. intro V. apply andb_true_iff in V as [Hne V].
  assert (Hs : strip block <> []).
  { intro E. rewrite E in Hne. discriminate. }
  rewrite parse_block_validate by assumption.
  destruct (validate_cases idx (block_question_text block)
              (block_scan' block))
    as [[H ->]|[(H1 & H2 & ->)|[(H1 & H2 & H3 & ->)|(H1 & H2 & H3 & _)]]].
  - eexists; split; [reflexivity|]. left; auto.
  - eexists; split; [reflexivity|]. right; left; auto.
  - eexists; split; [reflexivity|]. right; right; auto.
  - exfalso. rewrite H2, H3 in V. apply Nat.ltb_ge in H1. rewrite H1 in V.
    discriminate.
Qed.

(** The loop raises the message of the first violating block, whatever
    was collected before it. *)
Lemma parse_blocks_first_violation (blocks : list str) :
  forall (idx : nat) (qs : list Question),
    (exists b, In b blocks /\ violates' b = true) ->
    exists i b msg,
      nth_error blocks i = Some b /\
      violates' b = true /\
      (forall j b', j < i -> nth_error blocks j = Some b' ->
                    violates' b' = false) /\
      violation_message' (idx + i) b msg /\
      parse_blocks' blocks idx qs = Raise msg.
Proof.
  induction blocks as [|b0 rest IH]; intros idx qs [b [Hin Hv]].
  - destruct Hin.
  - destruct (violates' b0) eqn:V0.
    + destruct (parse_block_violation idx b0 V0) as (msg & Hp & Hm).
      exists 0, b0, msg. repeat split; auto.
      * intros j b' Hj. lia.
      * now rewrite Nat.add_0_r.
      * simpl. now rewrite Hp.
    + assert (Hrest : exists b, In b rest /\ violates' b = true).
      { destruct Hin as [->|Hin]; [congruence|]. now exists b. }
      assert (Hgo : forall qs', exists i b1 msg,
                 nth_error (b0 :: rest) i = Some b1 /\
                 violates' b1 = true /\
                 (forall j b', j < i -> nth_error (b0 :: rest) j = Some b' ->
                               violates' b' = false) /\
                 violation_message' (idx + i) b1 msg /\
                 parse_blocks' rest (S idx) qs' = Raise msg).
      { intro qs'.
        destruct (IH (S idx) qs' Hrest) as (i & b1 & msg & Hn & Hb & Hf & Hm & Hp).
        exists (S i), b1, msg. repeat split; auto.
        - intros [|j] b' Hj Hnj; simpl in Hnj.
          + now injection Hnj as <-.
          + apply (Hf j); [lia|assumption].
        - now rewrite Nat.add_succ_r. }
      simpl parse_blocks.
      destruct (parse_block_sound idx b0 V0) as [->|(q & -> & _)]; apply Hgo.
Qed.

(** Every record the loop adds has two options or more, an answer and an
    explanation. *)
Lemma parse_blocks_records (blocks : list str) :
  forall (idx : nat) (qs out : list Question),
    parse_blocks' blocks idx qs = Ok out ->
    exists added,
      out = qs ++ added /\
      Forall (fun q => 2 <= length (options q) /\ answer q <> [] /\
                       explanation q <> []) added.
Proof.
  induction blocks as [|b0 rest IH]; intros idx qs out H; simpl in H.
  - injection H as <-. exists []. now rewrite app_nil_r.
  - destruct (violates' b0) eqn:V0.
    + destruct (parse_block_violation idx b0 V0) as (msg & Hp & _).
      rewrite Hp in H. discriminate.
    + destruct (parse_block_sound idx b0 V0) as [E|(q & E & Hq)]; rewrite E in H.
      * now apply IH in H.
      * apply IH in H as (added & -> & Hall).
        exists (q :: added). rewrite <- app_assoc. split; [reflexivity|].
        now constructor.
Qed.

(** *** The scan of the lines of one block *)

Lemma scan_line_keeps_answer (st : Scan) (raw : str) :
  sets_answer' raw = false ->
  s_answer (scan_line' st raw) = s_answer st.
Proof.
  unfold sets_answer, is_option_line, is_answer_line, is_starred_unlabeled,
    has_answer_prefix, has_explanation_prefix, is_blank, is_starred,
    clean_of, line_of, scan_line.
  destruct (is_empty (strip raw)); [reflexivity|]. simpl negb. cbv iota.
  destruct (re_match opt_regex (strip (strip_stars (strip raw)))); simpl.
  - destruct (startswith (strip raw) [STAR]); simpl; congruence.
  - destruct (startswith (lower (strip raw)) (lower answer_prefix)); simpl;
      [congruence|].
    destruct (startswith (lower (strip raw)) (lower explanation_prefix));
      simpl; [reflexivity|].
    destruct (startswith (strip raw) [STAR]); simpl; congruence.
Qed.

Lemma scan_keeps_answer (post : list str) :
  forall st : Scan,
    (forall x, In x post -> sets_answer' x = false) ->
    s_answer (fold_left scan_line' post st) = s_answer st.
Proof.
  induction post as [|x post IH]; intros st H; simpl; [reflexivity|].
  rewrite IH by (intros y Hy; apply H; now right).
  apply scan_line_keeps_answer. apply H. now left.
Qed.

Lemma scan_line_sets_answer (st : Scan) (raw : str) :
  sets_answer' raw = true ->
  s_answer (scan_line' st raw) =
  Some (assigned_answer opt_regex answer_prefix raw).
Proof.
  unfold sets_answer, assigned_answer, is_option_line, is_answer_line,
    is_starred_unlabeled, has_answer_prefix, has_explanation_prefix,
    is_blank, is_starred, clean_of, line_of, answer_line_value, scan_line.
  destruct (is_empty (strip raw)); [discriminate|]. simpl negb. cbv iota.
  destruct (re_match opt_regex (strip (strip_stars (strip raw)))); simpl.
  - destruct (startswith (strip raw) [STAR]); simpl;
      [reflexivity|discriminate].
  - destruct (startswith (lower (strip raw)) (lower answer_prefix)); simpl;
      [reflexivity|].
    destruct (startswith (lower (strip raw)) (lower explanation_prefix));
      simpl; [discriminate|].
    destruct (startswith (strip raw) [STAR]); simpl;
      [reflexivity|discriminate].
Qed.

(** The answer after a scan is the one assigned by the last line that
    assigns it. *)
Lemma scan_lines_last_assignment (pre post : list str) (l : str) :
  sets_answer' l = true ->
  (forall x, In x post -> sets_answer' x = false) ->
  s_answer (scan_lines' (pre ++ l :: post)) =
  Some (assigned_answer opt_regex answer_prefix l).
Proof.
  intros Hl Hpost. unfold scan_lines.
  rewrite fold_left_app. simpl fold_left.
  rewrite scan_keeps_answer by assumption.
  now apply scan_line_sets_answer.
Qed.

(** The record of a block holds the answer its scan ended with. *)
Lemma parse_block_answer (idx : nat) (block : str) (q : Question) :
  parse_block' idx block = Ok (Some q) ->
  answer q = held (s_answer (block_scan' block)).
Proof.
  intro H.
  destruct (strip block) as [|c r] eqn:E.
  - rewrite parse_block_blank in H by assumption. discriminate.
  - rewrite parse_block_validate in H by congruence.
    destruct (validate_cases idx (block_question_text block)
                (block_scan' block))
      as [[_ V]|[(_ & _ & V)|[(_ & _ & _ & V)|(_ & _ & _ & V)]]];
      rewrite V in H; try discriminate.
    injection H as <-. reflexivity.
Qed.

End ParserFacts.

(** The loop ends with nothing collected exactly when every block is
    blank. *)
Lemma parse_blocks_nothing (opt_regex : OptRegex)
  (answer_prefix explanation_prefix : str) (blocks : list str) :
  forall (idx : nat) (qs : list Question),
    parse_blocks opt_regex answer_prefix explanation_prefix blocks idx qs
      = Ok qs <->
    (forall b, In b blocks -> strip b = []).
Proof.
  induction blocks as [|b0 rest IH]; intros idx qs; simpl.
  - split; [intros _ b []|reflexivity].
  - destruct (strip b0) as [|c r] eqn:E.
    + rewrite parse_block_blank by assumption. rewrite IH. split.
      * intros H b [<-|Hb]; [assumption|now apply H].
      * intros H b Hb. apply H. now right.
    + split.
      * intro H. exfalso.
        rewrite parse_block_validate in H by congruence.
        destruct (validate idx (block_question_text b0)
                    (block_scan opt_regex answer_prefix explanation_prefix
                                b0)) as [q|e]; [|discriminate].
        apply parse_blocks_records in H as (added & H & _).
        apply (f_equal (@length Question)) in H.
        rewrite !length_app in H. simpl in H. lia.
      * intro H. specialize (H b0 (or_introl eq_refl)). congruence.
Qed.

(** A message raised by the loop is one of the three per-question ones. *)
Lemma parse_blocks_raise (opt_regex : OptRegex)
  (answer_prefix explanation_prefix : str) (blocks : list str) :
  forall (idx : nat) (qs : list Question) (e : str),
    parse_blocks opt_regex answer_prefix explanation_prefix blocks idx qs
      = Raise e ->
    exists i qt,
      e = msg_options i qt \/ e = msg_answer i qt
      \/ e = msg_explanation i qt.
Proof.
  induction blocks as [|b0 rest IH]; intros idx qs e H; simpl in H;
    [discriminate|].
  destruct (violates opt_regex answer_prefix explanation_prefix b0) eqn:V0.
  - destruct (parse_block_violation _ _ _ idx b0 V0) as (msg & Hp & Hm).
    rewrite Hp in H. injection H as <-.
    exists idx, (block_question_text b0).
    destruct Hm as [[_ ->]|[(_ & _ & ->)|(_ & _ & _ & ->)]]; auto.
  - destruct (parse_block_sound _ _ _ idx b0 V0) as [E|(q & E & _)];
      rewrite E in H; now apply IH in H.
Qed.

(** The structural message differs from every per-question message. *)
Lemma msg_no_questions_distinct (idx : nat) (qt : str) :
  msg_no_questions <> msg_options idx qt /\
  msg_no_questions <> msg_answer idx qt /\
  msg_no_questions <> msg_explanation idx qt.
Proof.
  unfold msg_no_questions, msg_options, msg_answer, msg_explanation.
  repeat split; intro H; cbn [lit list_ascii_of_string app] in H;
    discriminate H.
Qed.

Lemma msg_failed_inj (a b : str) : msg_failed a = msg_failed b -> a = b.
Proof. unfold msg_failed. apply app_inv_head. Qed.

(** ** The parser *)


(** C7: when the loop over the blocks ends with no record collected, the
    parse raises the structural message, and only then; this happens
    exactly when every block of the split is blank; the structural
    message differs from the three per-question messages; so a parse
    that succeeds returns at least one record. *)
Theorem no_questions_is_structural_failure :
  forall (text : str) (q_sep : QSep) (opt_regex : OptRegex)
         (answer_prefix explanation_prefix : str),
    (parse_blocks opt_regex answer_prefix explanation_prefix
                  (re_split q_sep (strip text)) 1 [] = Ok [] <->
     parse_guided_format text q_sep opt_regex answer_prefix
                         explanation_prefix
       = Raise (msg_failed msg_no_questions)) /\
    (parse_blocks opt_regex answer_prefix explanation_prefix
                  (re_split q_sep (strip text)) 1 [] = Ok [] <->
     forall b, In b (re_split q_sep (strip text)) -> strip b = []) /\
    (forall idx qt,
       msg_failed msg_no_questions <> msg_failed (msg_options idx qt) /\
       msg_failed msg_no_questions <> msg_failed (msg_answer idx qt) /\
       msg_failed msg_no_questions <> msg_failed (msg_explanation idx qt)) /\
    (forall questions,
       parse_guided_format text q_sep opt_regex answer_prefix
                           explanation_prefix = Ok questions ->
       questions <> []).
Proof.
  intros text q_sep opt_regex ap ep.
  assert (D : forall idx qt,
    msg_failed msg_no_questions <> msg_failed (msg_options idx qt) /\
    msg_failed msg_no_questions <> msg_failed (msg_answer idx qt) /\
    msg_failed msg_no_questions <> msg_failed (msg_explanation idx qt)).
  { intros idx qt.
    destruct (msg_no_questions_distinct idx qt) as (H1 & H2 & H3).
    repeat split; intro H; apply msg_failed_inj in H; contradiction. }
  split; [|split; [apply parse_blocks_nothing|split; [exact D|]]].
  - unfold parse_guided_format, parse_body.
    destruct (parse_blocks opt_regex ap ep (re_split q_sep (strip text)) 1 [])
      as [[|q qs]|e] eqn:E.
    + tauto.
    + split; discriminate.
    + split; [discriminate|]. intro H.
      assert (He : msg_failed e = msg_failed msg_no_questions)
        by congruence.
      apply msg_failed_inj in He.
      apply parse_blocks_raise in E as (i & qt & E).
      destruct (msg_no_questions_distinct i qt) as (H1 & H2 & H3).
      exfalso. destruct E as [E|[E|E]]; congruence.
  - unfold parse_guided_format, parse_body.
    destruct (parse_blocks opt_regex ap ep (re_split q_sep (strip text)) 1 [])
      as [[|q qs]|e]; intros questions H; [discriminate| |discriminate].
    injection H as <-. discriminate.
Qed.

(** The empty text raises the structural message; the example text
    parses to a list that is not empty. *)
Lemma no_questions_is_structural_failure_witness :
  parse_guided_format [] BlankLine LowerParen (lit "Answer:")
    (lit "Explanation:") = Raise (msg_failed msg_no_questions) /\
  [Example.record] <> [].
Proof.
  split.
  - apply (proj1 (no_questions_is_structural_failure [] BlankLine LowerParen
                    (lit "Answer:") (lit "Explanation:"))).
    vm_compute. reflexivity.
  - apply (proj2 (proj2 (proj2 (no_questions_is_structural_failure
                    Example.text QuestionLabel LowerParen (lit "Answer:")
                    (lit "Explanation:"))))).
    vm_compute. reflexivity.
Defined.

(** C5, as stated, fails: in this block the answer line comes before the
    starred option, and the record holds the starred option's text "4",
    not the value "3" of the answer line. *)
Lemma starred_option_after_answer_line_wins :
  exists starred answer_line q,
    In starred (tl (block_lines Example.answer_first)) /\
    is_option_line LowerParen starred = true /\
    is_starred starred = true /\
    In answer_line (tl (block_lines Example.answer_first)) /\
    has_answer_prefix (lit "Answer:") answer_line = true /\
    parse_guided_format Example.answer_first QuestionLabel LowerParen
      (lit "Answer:") (lit "Explanation:") = Ok [q] /\
    answer q = lit "4" /\
    answer_line_value (lit "Answer:") answer_line = lit "3" /\
    answer q <> answer_line_value (lit "Answer:") answer_line.
Proof.
  exists (lit "*b) 4"), (lit "Answer: a) 3").
  eexists. split; [vm_compute; tauto|].
  split; [vm_compute; reflexivity|]. split; [vm_compute; reflexivity|].
  split; [vm_compute; tauto|]. split; [vm_compute; reflexivity|].
  split; [vm_compute; reflexivity|].
  split; [vm_compute; reflexivity|]. split; [vm_compute; reflexivity|].
  vm_compute. discriminate.
Qed.

(** C5, amended: the record of a block holds the answer assigned by the
    last line of the block that assigns one.  When that line is the
    answer line, the record holds the answer line's value (prefix cut off,
    then marker stripped), which overrides the starred options before it;
    when a starred option or a starred unlabeled line follows the answer
    line, the record holds that line's text. *)
Theorem last_answer_assignment_wins :
  forall (opt_regex : OptRegex) (answer_prefix explanation_prefix : str)
         (idx : nat) (block first : str) (pre post : list str) (l : str)
         (q : Question),
    block_lines block = first :: pre ++ l :: post ->
    sets_answer opt_regex answer_prefix explanation_prefix l = true ->
    (forall x, In x post ->
       sets_answer opt_regex answer_prefix explanation_prefix x = false) ->
    parse_block opt_regex answer_prefix explanation_prefix idx block
      = Ok (Some q) ->
    answer q =
      (if is_answer_line opt_regex answer_prefix l
       then answer_line_value answer_prefix l
       else if is_option_line opt_regex l
       then strip (strip_marker (clean_of l))
       else clean_of l).
Proof.
  intros opt_regex ap ep idx block first pre post l q Hlines Hl Hpost Hq.
  rewrite (parse_block_answer _ _ _ _ _ _ Hq).
  unfold block_scan. rewrite Hlines. simpl tl.
  rewrite (scan_lines_last_assignment _ _ ep pre post l Hl Hpost).
  reflexivity.
Qed.

(** In the example text the answer line follows the starred option and
    only the explanation comes after it. *)
Lemma last_answer_assignment_wins_witness :
  answer Example.record = answer_line_value (lit "Answer:") (lit "Answer: b) 4").
Proof.
  apply (last_answer_assignment_wins LowerParen (lit "Answer:")
           (lit "Explanation:") 1 Example.text
           (lit "Question 1: What is 2+2?")
           [lit "a) 3"; lit "*b) 4"; lit "c) 5"]
           [lit "Explanation: 2+2 is 4."]
           (lit "Answer: b) 4") Example.record).
  - vm_compute. reflexivity.
  - vm_compute. reflexivity.
  - intros x [<-|[]]. vm_compute. reflexivity.
  - vm_compute. reflexivity.
Defined.

(** C6: a non-blank line whose text after the leading asterisks matches
    the option pattern and which also starts with the answer prefix is
    appended to the options; the answer is left as it was, or, when the
    line is starred, set to the line's own marker-stripped text: the
    answer-prefix rule is not applied to it. *)
Theorem option_pattern_checked_before_answer_prefix :
  forall (opt_regex : OptRegex) (answer_prefix explanation_prefix : str)
         (st : Scan) (raw : str),
    is_blank raw = false ->
    re_match opt_regex (clean_of raw) = true ->
    has_answer_prefix answer_prefix raw = true ->
    scan_line opt_regex answer_prefix explanation_prefix st raw =
      mkScan (s_options st ++ [clean_of raw])
             (if is_starred raw
              then Some (strip (strip_marker (clean_of raw)))
              else s_answer st)
             (s_explanation st).
Proof.
  intros opt_regex ap ep st raw Hb Hm _.
  unfold is_blank, clean_of, is_starred in *. unfold scan_line.
  rewrite Hb, Hm. reflexivity.
Qed.

(** With the answer prefix set to the marker of the first option, that
    option line is still read as an option and the answer is kept. *)
Lemma option_pattern_checked_before_answer_prefix_witness :
  scan_line LowerParen (lit "a)") (lit "Explanation:")
            (mkScan [] (Some (lit "kept")) None) (lit "a) 3")
  = mkScan [lit "a) 3"] (Some (lit "kept")) None.
Proof.
  apply (option_pattern_checked_before_answer_prefix LowerParen (lit "a)")
           (lit "Explanation:") (mkScan [] (Some (lit "kept")) None)
           (lit "a) 3")).
  - vm_compute. reflexivity.
  - vm_compute. reflexivity.
  - vm_compute. reflexivity.
Defined.

(** ** Facts about the element tree *)

Lemma enumerate_length {A : Type} (l : list A) :
  forall start, length (enumerate start l) = length l.
Proof. induction l as [|x r IH]; intro s; simpl; [|rewrite IH]; reflexivity. Qed.

Lemma enumerate_nth_error {A : Type} (l : list A) :
  forall start j,
    nth_error (enumerate start l) j =
    option_map (fun x => (start + j, x)) (nth_error l j).
Proof.
  induction l as [|x r IH]; intros s [|j]; simpl; try reflexivity.
  - now rewrite Nat.add_0_r.
  - rewrite IH. now rewrite Nat.add_succ_r.
Qed.

(** [next] returns the default when the condition holds nowhere. *)
Lemma next_index_default (cond : str -> bool) (l : list str) :
  forall start default,
    (forall o, In o l -> cond o = false) ->
    next_index cond (enumerate start l) default = default.
Proof.
  induction l as [|x r IH]; intros s d H; simpl; [reflexivity|].
  rewrite (H x) by now left. apply IH. intros o Ho. apply H. now right.
Qed.

(** [next] returns the position of the first option the condition
    holds of. *)
Lemma next_index_first (cond : str -> bool) (l : list str) :
  forall start default k o,
    nth_error l k = Some o -> cond o = true ->
    (forall j o', j < k -> nth_error l j = Some o' -> cond o' = false) ->
    next_index cond (enumerate start l) default = start + k.
Proof.
  induction l as [|x r IH]; intros s d k o Hn Hc Hf.
  - destruct k; discriminate.
  - destruct k as [|k]; simpl in *.
    + injection Hn as ->. rewrite Hc. now rewrite Nat.add_0_r.
    + rewrite (Hf 0 x) by (simpl; first [lia|reflexivity]).
      rewrite (IH (S s) d k o Hn Hc).
      * now rewrite Nat.add_succ_r.
      * intros j o' Hj Hnj. apply (Hf (S j)); [lia|assumption].
Qed.

(** Among the positions the condition holds at there is a first one. *)
Lemma first_position (cond : str -> bool) (l : list str) :
  forall k o,
    nth_error l k = Some o -> cond o = true ->
    exists m o',
      m <= k /\ nth_error l m = Some o' /\ cond o' = true /\
      (forall j x, j < m -> nth_error l j = Some x -> cond x = false).
Proof.
  induction l as [|x r IH]; intros k o Hn Hc.
  - destruct k; discriminate.
  - destruct (cond x) eqn:Hx.
    + exists 0, x. repeat split; auto; [lia|]. intros j y Hj. lia.
    + destruct k as [|k]; simpl in Hn.
      * injection Hn as ->. congruence.
      * destruct (IH k o Hn Hc) as (m & o' & Hm & Hnm & Hco & Hf).
        exists (S m), o'. repeat split; auto; [lia|].
        intros [|j] y Hj Hy; simpl in Hy.
        -- now injection Hy as <-.
        -- apply (Hf j); [lia|assumption].
Qed.

Lemma filter_map_all {A B : Type} (f : B -> bool) (g : A -> B)
  (l : list A) :
  (forall x, f (g x) = true) -> filter f (map g l) = map g l.
Proof.
  intro H. induction l as [|x r IH]; [reflexivity|].
  cbn [map filter]. now rewrite H, IH.
Qed.

Lemma findall_response_labels (l : list (nat * str)) :
  filter (fun c => str_eqb (tag c) (lit "response_label"))
         (map (fun p => response_label (fst p) (snd p)) l)
  = map (fun p => response_label (fst p) (snd p)) l.
Proof. apply filter_map_all. intro p. reflexivity. Qed.

Lemma findall_items (points : str) (l : list (nat * Question)) :
  filter (fun c => str_eqb (tag c) (lit "item"))
         (map (fun p => item (fst p) (snd p) points) l)
  = map (fun p => item (fst p) (snd p) points) l.
Proof. apply filter_map_all. intro p. reflexivity. Qed.

(** The varequal of the "correct" condition of an item holds the local
    [correct_option_id]. *)
Lemma correct_varequal_text_item (i : nat) (q : Question) (points : str) :
  correct_varequal_text (item i q points)
  = Some (lit "option" ++ str_of_nat (correct_option_id q)).
Proof. reflexivity. Qed.

Lemma response_labels_item (i : nat) (q : Question) (points : str) :
  response_labels (item i q points)
  = map (fun p => response_label (fst p) (snd p)) (enumerate 1 (options q)).
Proof.
  unfold response_labels, item.
  change (find_child _ (lit "presentation") >>= _) with
    (Some (Elem (lit "render_choice") [] None
             (map (fun p => response_label (fst p) (snd p))
                  (enumerate 1 (options q))))).
  unfold findall. simpl children. apply findall_response_labels.
Qed.

Lemma items_of_create_qti_bytes (questions : list Question) (points : str) :
  findall (create_qti_bytes questions points) (lit "item")
  = map (fun p => item (fst p) (snd p) points) (enumerate 0 questions).
Proof. unfold findall, create_qti_bytes. simpl children. apply findall_items. Qed.

Lemma nth_item (questions : list Question) (points : str) (i : nat)
  (q : Question) :
  nth_error questions i = Some q ->
  nth_error (findall (create_qti_bytes questions points) (lit "item")) i
  = Some (item i q points).
Proof.
  intro H. rewrite items_of_create_qti_bytes, nth_error_map.
  rewrite enumerate_nth_error, H. reflexivity.
Qed.

Lemma nth_response_label (i : nat) (q : Question) (points : str) (j : nat)
  (opt : str) :
  nth_error (options q) j = Some opt ->
  nth_error (response_labels (item i q points)) j
  = Some (response_label (j + 1) opt).
Proof.
  intro H. rewrite response_labels_item, nth_error_map.
  rewrite enumerate_nth_error, H. simpl. now rewrite Nat.add_comm.
Qed.

Lemma nth_item_inv (questions : list Question) (points : str) (i : nat)
  (it : Element) :
  nth_error (findall (create_qti_bytes questions points) (lit "item")) i
    = Some it ->
  exists q, nth_error questions i = Some q /\ it = item i q points.
Proof.
  rewrite items_of_create_qti_bytes, nth_error_map, enumerate_nth_error.
  destruct (nth_error questions i) as [q|]; simpl; [|discriminate].
  intros [= <-]. now exists q.
Qed.

(** [next] returns the default or a position of the list. *)
Lemma next_index_range (cond : str -> bool) (l : list str) :
  forall start default,
    next_index cond (enumerate start l) default = default \/
    exists k, k < length l /\
              next_index cond (enumerate start l) default = start + k.
Proof.
  induction l as [|x r IH]; intros s d; simpl; [now left|].
  destruct (cond x).
  - right. exists 0. split; [lia|now rewrite Nat.add_0_r].
  - destruct (IH (S s) d) as [H|(k & Hk & H)]; [now left|right].
    exists (S k). split; [lia|]. rewrite H. now rewrite Nat.add_succ_r.
Qed.

Lemma correct_option_id_range (q : Question) :
  options q <> [] ->
  1 <= correct_option_id q <= length (options q).
Proof.
  intro Hne. unfold correct_option_id.
  destruct (next_index_range (answer_matches q) (options q) 1 1)
    as [->|(k & Hk & ->)].
  - destruct (options q); [congruence|simpl; lia].
  - lia.
Qed.

Lemma answer_matches_eq (q : Question) (opt : str) :
  answer_matches q opt = true <->
  lower (strip (answer q)) = lower (strip (strip_marker opt)).
Proof. unfold answer_matches, clean_option. apply str_eqb_eq. Qed.

Lemma answer_matches_neq (q : Question) (opt : str) :
  answer_matches q opt = false <->
  lower (strip (answer q)) <> lower (strip (strip_marker opt)).
Proof.
  rewrite <- answer_matches_eq.
  destruct (answer_matches q opt); split; congruence.
Qed.

(** ** Stripped strings

    The parser stores every option stripped, and on a stripped option the
    marker-stripping rule leaves nothing for the final [strip] of
    [clean_option] to remove. *)

Lemma drop_while_starts_clean (s : str) : starts_clean (drop_while isspace s).
Proof.
  induction s as [|c r IH]; simpl; [exact I|].
  destruct (isspace c) eqn:E; [exact IH|exact E].
Qed.

Lemma drop_while_clean (s : str) :
  starts_clean s -> drop_while isspace s = s.
Proof. destruct s as [|c r]; simpl; [reflexivity|]. now intros ->. Qed.

Lemma drop_while_suffix (p : ascii -> bool) (s : str) :
  exists u, s = u ++ drop_while p s.
Proof.
  induction s as [|c r [u IH]]; simpl; [now exists []|].
  destruct (p c); [|now exists []].
  exists (c :: u). simpl. now rewrite <- IH.
Qed.

Lemma drop_while_length (p : ascii -> bool) (s : str) :
  length (drop_while p s) <= length s.
Proof.
  induction s as [|c r IH]; simpl; [lia|]. destruct (p c); simpl; lia.
Qed.

Lemma drop_while_same_length (s : str) :
  length (drop_while isspace s) = length s -> starts_clean s.
Proof.
  destruct s as [|c r]; simpl; [trivial|].
  destruct (isspace c); [|reflexivity].
  pose proof (drop_while_length isspace r). lia.
Qed.

Lemma strip_clean (s : str) :
  starts_clean s -> ends_clean s -> strip s = s.
Proof.
  intros Hs He. unfold strip, lstrip, rstrip.
  rewrite (drop_while_clean s Hs), (drop_while_clean (rev s) He).
  apply rev_involutive.
Qed.

Lemma strip_fixed_clean (s : str) :
  strip s = s -> starts_clean s /\ ends_clean s.
Proof.
  unfold strip, lstrip, rstrip. intro H.
  pose proof (f_equal (@length ascii) H) as L. rewrite length_rev in L.
  pose proof (drop_while_length isspace (rev (drop_while isspace s))) as L1.
  rewrite length_rev in L1.
  pose proof (drop_while_length isspace s) as L2.
  assert (Hs : starts_clean s) by (apply drop_while_same_length; lia).
  split; [exact Hs|].
  rewrite (drop_while_clean s Hs) in L.
  apply drop_while_same_length. now rewrite length_rev.
Qed.

(** A suffix that is not empty ends as the whole string does. *)
Lemma ends_clean_suffix (u t : str) :
  ends_clean (u ++ t) -> ends_clean t.
Proof.
  unfold ends_clean. rewrite rev_app_distr.
  destruct (rev t) as [|c r]; simpl; trivial.
Qed.

(** [strip] returns a stripped string. *)
Lemma strip_strip (s : str) : strip (strip s) = strip s.
Proof.
  apply strip_clean.
  - unfold strip, rstrip, lstrip.
    pose proof (drop_while_starts_clean s) as Hs.
    destruct (drop_while_suffix isspace (rev (drop_while isspace s)))
      as [u Hu].
    apply (f_equal (@rev ascii)) in Hu.
    rewrite rev_involutive, rev_app_distr in Hu.
    rewrite Hu in Hs.
    destruct (rev (drop_while isspace (rev (drop_while isspace s))));
      simpl in *; [exact I|exact Hs].
  - unfold ends_clean, strip, rstrip. rewrite rev_involutive.
    apply drop_while_starts_clean.
Qed.

(** On a stripped string the final [strip] of [clean_option] is idle. *)
Lemma clean_option_of_stripped (opt : str) :
  strip opt = opt -> clean_option opt = strip_marker opt.
Proof.
  intro H. apply strip_fixed_clean in H as [Hs He].
  unfold clean_option. unfold strip_marker.
  destruct opt as [|c r]; [reflexivity|].
  destruct (is_marker_char c); [|now apply strip_clean].
  destruct (drop_while_suffix is_marker_char r) as [u Hu].
  destruct (drop_while is_marker_char r) as [|p r'] eqn:E;
    [now apply strip_clean|].
  destruct (Ascii.eqb p RPAREN); [|now apply strip_clean].
  apply strip_clean; [apply drop_while_starts_clean|].
  destruct (drop_while_suffix isspace r') as [v Hv].
  apply (ends_clean_suffix (c :: u ++ p :: v)).
  rewrite <- app_comm_cons, <- app_assoc, <- app_comm_cons, <- Hv, <- Hu.
  exact He.
Qed.

(** Every option of a scan is stored stripped. *)
Lemma scan_line_options_stripped (opt_regex : OptRegex)
  (answer_prefix explanation_prefix : str) (st : Scan) (raw : str) :
  Forall (fun o => strip o = o) (s_options st) ->
  Forall (fun o => strip o = o)
         (s_options (scan_line opt_regex answer_prefix explanation_prefix
                               st raw)).
Proof.
  intro H. unfold scan_line.
  assert (Hadd : Forall (fun o => strip o = o)
                   (s_options st ++ [strip (strip_stars (strip raw))])).
  { apply Forall_app. split; [exact H|].
    constructor; [apply strip_strip|constructor]. }
  repeat match goal with
         | |- context [if ?b then _ else _] => destruct b
         end; simpl; assumption.
Qed.

Lemma scan_lines_options_stripped (opt_regex : OptRegex)
  (answer_prefix explanation_prefix : str) (lines : list str) :
  Forall (fun o => strip o = o)
         (s_options (scan_lines opt_regex answer_prefix explanation_prefix
                                lines)).
Proof.
  unfold scan_lines.
  assert (G : forall st, Forall (fun o => strip o = o) (s_options st) ->
            Forall (fun o => strip o = o)
              (s_options (fold_left
                 (scan_line opt_regex answer_prefix explanation_prefix)
                 lines st))).
  { induction lines as [|l r IH]; intros st H; simpl; [exact H|].
    apply IH. now apply scan_line_options_stripped. }
  apply G. constructor.
Qed.

Lemma parse_block_options_stripped (opt_regex : OptRegex)
  (answer_prefix explanation_prefix : str) (idx : nat) (block : str)
  (q : Question) :
  parse_block opt_regex answer_prefix explanation_prefix idx block
    = Ok (Some q) ->
  Forall (fun o => strip o = o) (options q).
Proof.
  intro H.
  destruct (strip block) as [|c r] eqn:E.
  - rewrite parse_block_blank in H by assumption. discriminate.
  - rewrite parse_block_validate in H by congruence.
    destruct (validate_cases idx (block_question_text block)
                (block_scan opt_regex answer_prefix explanation_prefix block))
      as [[_ V]|[(_ & _ & V)|[(_ & _ & _ & V)|(_ & _ & _ & V)]]];
      rewrite V in H; try discriminate.
    injection H as <-. simpl. apply scan_lines_options_stripped.
Qed.

Lemma parse_blocks_options_stripped (opt_regex : OptRegex)
  (answer_prefix explanation_prefix : str) (blocks : list str) :
  forall (idx : nat) (qs out : list Question),
    Forall (fun q => Forall (fun o => strip o = o) (options q)) qs ->
    parse_blocks opt_regex answer_prefix explanation_prefix blocks idx qs
      = Ok out ->
    Forall (fun q => Forall (fun o => strip o = o) (options q)) out.
Proof.
  induction blocks as [|b0 rest IH]; intros idx qs out Hqs H; simpl in H.
  - now injection H as <-.
  - destruct (parse_block opt_regex answer_prefix explanation_prefix idx b0)
      as [[q|]|e] eqn:E; [| |discriminate].
    + apply (IH _ _ _ (proj2 (Forall_app _ _ _) (conj Hqs
               (Forall_cons _ (parse_block_options_stripped _ _ _ _ _ _ E)
                            (Forall_nil _)))) H).
    + now apply (IH _ _ _ Hqs H).
Qed.

(** For the records of a successful parse, the text shown for an option
    is the option with the marker-stripping rule applied, nothing more. *)
Lemma parsed_option_shown_marker_stripped :
  forall (text : str) (q_sep : QSep) (opt_regex : OptRegex)
         (answer_prefix explanation_prefix : str)
         (questions : list Question) (q : Question) (opt : str),
    parse_guided_format text q_sep opt_regex answer_prefix
                        explanation_prefix = Ok questions ->
    In q questions -> In opt (options q) ->
    clean_option opt = strip_marker opt.
Proof.
  intros text q_sep opt_regex ap ep questions q opt Hp Hq Ho.
  apply clean_option_of_stripped.
  unfold parse_guided_format, parse_body in Hp.
  destruct (parse_blocks opt_regex ap ep (re_split q_sep (strip text)) 1 [])
    as [out|e] eqn:E; [|discriminate].
  assert (out = questions) by (destruct out; congruence). subst out.
  apply parse_blocks_options_stripped in E; [|constructor].
  rewrite Forall_forall in E. specialize (E q Hq).
  rewrite Forall_forall in E. now apply E.
Qed.

(** * Further properties *)

(** ** White space and ink *)

Lemma drop_while_all (p : ascii -> bool) (s : str) :
  forallb p s = true -> drop_while p s = [].
Proof.
  induction s as [|c r IH]; simpl; [reflexivity|].
  destruct (p c); simpl; [exact IH|discriminate].
Qed.

Lemma drop_while_nil (p : ascii -> bool) (s : str) :
  drop_while p s = [] -> forallb p s = true.
Proof.
  induction s as [|c r IH]; simpl; [reflexivity|].
  destruct (p c); simpl; [exact IH|discriminate].
Qed.

Lemma has_ink_all_space (s : str) : has_ink s = negb (all_space s).
Proof.
  unfold has_ink, all_space. induction s as [|c r IH]; simpl; [reflexivity|].
  rewrite IH. now destruct (isspace c), (forallb isspace r).
Qed.

Lemma all_space_rev (s : str) : all_space (rev s) = all_space s.
Proof.
  unfold all_space. induction s as [|c r IH]; simpl; [reflexivity|].
  rewrite forallb_app, IH. simpl. rewrite andb_true_r. apply andb_comm.
Qed.

Lemma strip_all_space (s : str) : all_space s = true -> strip s = [].
Proof.
  intro H. unfold strip, lstrip, rstrip.
  now rewrite (drop_while_all _ _ H).
Qed.

(** [strip] leaves nothing exactly of the strings without ink. *)
Lemma strip_nil_iff (s : str) : strip s = [] <-> has_ink s = false.
Proof.
  rewrite has_ink_all_space, negb_false_iff. split; [|apply strip_all_space].
  unfold strip, lstrip, rstrip. intro H.
  apply (f_equal (@rev ascii)) in H. rewrite rev_involutive in H. simpl in H.
  apply drop_while_nil in H. fold (all_space (rev (drop_while isspace s))) in H.
  rewrite all_space_rev in H.
  pose proof (drop_while_starts_clean s) as Hc.
  destruct (drop_while isspace s) as [|c r] eqn:E.
  - now apply drop_while_nil.
  - simpl in Hc, H. rewrite Hc in H. discriminate.
Qed.

Lemma strip_not_nil_iff (s : str) : strip s <> [] <-> has_ink s = true.
Proof.
  rewrite strip_nil_iff. destruct (has_ink s); split; congruence.
Qed.

Lemma isspace_NL_char (c : ascii) : Ascii.eqb c NL = true -> isspace c = true.
Proof. intro H. apply Ascii.eqb_eq in H. subst c. reflexivity. Qed.

Lemma not_space_not_NL (c : ascii) :
  isspace c = false -> Ascii.eqb c NL = false.
Proof.
  intro H. destruct (Ascii.eqb c NL) eqn:E; [|reflexivity].
  apply isspace_NL_char in E. congruence.
Qed.

Lemma ends_clean_tail (c : ascii) (r : str) :
  r <> [] -> ends_clean (c :: r) -> ends_clean r.
Proof.
  unfold ends_clean. simpl. intro Hr.
  destruct (rev r) as [|x y] eqn:E; simpl; [|trivial].
  apply (f_equal (@rev ascii)) in E. rewrite rev_involutive in E.
  simpl in E. contradiction.
Qed.

Lemma ends_clean_has_ink (s : str) :
  s <> [] -> ends_clean s -> has_ink s = true.
Proof.
  intros Hs He. unfold ends_clean in He.
  destruct (rev s) as [|x y] eqn:E.
  - apply (f_equal (@rev ascii)) in E. rewrite rev_involutive in E.
    simpl in E. contradiction.
  - simpl in He. apply (f_equal (@rev ascii)) in E.
    rewrite rev_involutive in E. simpl in E. subst s.
    unfold has_ink. rewrite existsb_app. simpl. rewrite He. simpl.
    apply orb_true_r.
Qed.

(** ** The pieces of a split *)

Lemma push_head_not_nil (c : ascii) (l : list str) : push_head c l <> [].
Proof. destruct l; simpl; discriminate. Qed.

Lemma push_head_tl (c : ascii) (l : list str) :
  l <> [] -> tl (push_head c l) = tl l.
Proof. destruct l; simpl; [congruence|reflexivity]. Qed.

Lemma push_head_hd (c : ascii) (l : list str) :
  hd [] (push_head c l) = c :: hd [] l.
Proof. destruct l; reflexivity. Qed.

Lemma split_ahead_not_nil (ahead : str -> bool) (s : str) :
  split_ahead ahead s <> [].
Proof.
  destruct s as [|c r]; simpl; [discriminate|].
  destruct (Ascii.eqb c NL && ahead r); [discriminate|apply push_head_not_nil].
Qed.

Lemma split_blank_not_nil (s : str) : forall skip, split_blank skip s <> [].
Proof.
  induction s as [|c r IH]; intros [|k]; simpl; try discriminate; auto.
  destruct (Ascii.eqb c NL); [|apply push_head_not_nil].
  destruct (gap_length r); [discriminate|apply push_head_not_nil].
Qed.

Lemma list_hd_tl {A : Type} (d : A) (l : list A) :
  l <> [] -> l = hd d l :: tl l.
Proof. destruct l; [congruence|reflexivity]. Qed.

(** The first piece of a split starts as the text does. *)
Lemma re_split_hd (q : QSep) (c : ascii) (r : str) :
  isspace c = false ->
  hd [] (re_split q (c :: r)) = c :: tl (hd [] (re_split q (c :: r))).
Proof.
  intro H. apply not_space_not_NL in H.
  destruct q; simpl; rewrite H; simpl; now rewrite push_head_hd.
Qed.

(** After a lookahead that demands ink, every later piece starts with
    ink. *)
Lemma split_ahead_tl_ink (ahead : str -> bool) :
  (forall r, ahead r = true ->
     exists c r', r = c :: r' /\ isspace c = false) ->
  forall s, Forall (fun b => has_ink b = true) (tl (split_ahead ahead s)).
Proof.
  intros Hahead s. induction s as [|c r IH]; simpl; [constructor|].
  destruct (Ascii.eqb c NL && ahead r) eqn:E.
  - simpl. apply andb_true_iff in E as [_ E].
    destruct (Hahead r E) as (c' & r' & -> & Hc').
    rewrite (list_hd_tl [] _ (split_ahead_not_nil ahead (c' :: r'))).
    constructor; [|exact IH].
    simpl. rewrite (not_space_not_NL _ Hc'). simpl.
    rewrite push_head_hd. simpl. now rewrite Hc'.
  - rewrite push_head_tl by apply split_ahead_not_nil. exact IH.
Qed.

Lemma ahead_bold_ink (r : str) :
  ahead_bold r = true -> exists c r', r = c :: r' /\ isspace c = false.
Proof.
  unfold ahead_bold. destruct r as [|c r']; [discriminate|].
  cbn [startswith]. intro H. apply andb_true_iff in H as [H _].
  apply Ascii.eqb_eq in H. subst c. now exists STAR, r'.
Qed.

Lemma ahead_question_ink (r : str) :
  ahead_question r = true -> exists c r', r = c :: r' /\ isspace c = false.
Proof.
  unfold ahead_question. destruct r as [|c r']; [discriminate|].
  cbn [strip_prefix lit list_ascii_of_string].
  destruct (Ascii.eqb "Q" c) eqn:E; [|discriminate].
  apply Ascii.eqb_eq in E. subst c. intros _. now exists "Q"%char, r'.
Qed.

(** The characters a separator match consumes are skipped one by one. *)
Lemma split_blank_skip (m : nat) :
  forall s, m <= length s -> split_blank m s = split_blank 0 (skipn m s).
Proof.
  induction m as [|m IH]; intros s H; [reflexivity|].
  destruct s as [|c r]; simpl in *; [lia|]. apply IH. lia.
Qed.

Lemma gap_length_le (s : str) :
  forall m, gap_length s = Some m -> m <= length s.
Proof.
  induction s as [|c r IH]; simpl; intros m H; [discriminate|].
  destruct (isspace c); [|discriminate].
  destruct (gap_length r) as [k|].
  - injection H as <-. specialize (IH k eq_refl). lia.
  - destruct (Ascii.eqb c NL); [|discriminate]. injection H as <-. lia.
Qed.

(** What is left after a separator match has no further match at its
    start. *)
Lemma gap_length_rest (s : str) :
  forall m, gap_length s = Some m -> gap_length (skipn m s) = None.
Proof.
  induction s as [|c r IH]; simpl; intros m H; [discriminate|].
  destruct (isspace c); [|discriminate].
  destruct (gap_length r) as [k|] eqn:E.
  - injection H as <-. simpl. now apply IH.
  - destruct (Ascii.eqb c NL); [|discriminate]. injection H as <-.
    simpl. exact E.
Qed.

(** In a text that ends with ink, ink is left after a separator match. *)
Lemma gap_length_rest_ink (s : str) :
  forall m, gap_length s = Some m -> ends_clean s ->
            has_ink (skipn m s) = true.
Proof.
  induction s as [|c r IH]; simpl; intros m H He; [discriminate|].
  destruct (isspace c) eqn:Hc; [|discriminate].
  assert (Hr : r <> []).
  { intros ->. unfold ends_clean in He. simpl in He. congruence. }
  pose proof (ends_clean_tail c r Hr He) as Her.
  destruct (gap_length r) as [k|] eqn:E.
  - injection H as <-. simpl. now apply IH.
  - destruct (Ascii.eqb c NL); [|discriminate]. injection H as <-.
    simpl. now apply ends_clean_has_ink.
Qed.

(** Without a match at its start, a text with ink has ink in its first
    piece. *)
Lemma split_blank_hd_ink (s : str) :
  gap_length s = None -> has_ink s = true ->
  has_ink (hd [] (split_blank 0 s)) = true.
Proof.
  induction s as [|c r IH]; simpl; intros Hg Hi; [discriminate|].
  destruct (isspace c) eqn:Hc.
  - simpl in Hi. destruct (gap_length r) as [k|] eqn:E; [discriminate|].
    destruct (Ascii.eqb c NL); [discriminate|].
    rewrite push_head_hd. simpl. rewrite Hc. simpl. now apply IH.
  - rewrite (not_space_not_NL c Hc), push_head_hd. simpl. now rewrite Hc.
Qed.

Lemma split_blank_tl_ink (s : str) :
  forall skip, ends_clean s ->
    Forall (fun b => has_ink b = true) (tl (split_blank skip s)).
Proof.
  induction s as [|c r IH]; intros skip He; [destruct skip; constructor|].
  assert (Her : ends_clean r).
  { destruct r as [|x y]; [exact I|].
    apply (ends_clean_tail c); [discriminate|exact He]. }
  destruct skip as [|k]; simpl; [|now apply IH].
  destruct (Ascii.eqb c NL) eqn:Hn.
  - destruct (gap_length r) as [m|] eqn:E.
    + simpl.
      rewrite (list_hd_tl [] _ (split_blank_not_nil r m)).
      constructor; [|now apply IH].
      rewrite (split_blank_skip m r (gap_length_le r m E)).
      apply split_blank_hd_ink.
      * now apply gap_length_rest.
      * now apply gap_length_rest_ink.
    + rewrite push_head_tl by apply split_blank_not_nil. now apply IH.
  - rewrite push_head_tl by apply split_blank_not_nil. now apply IH.
Qed.

Lemma re_split_not_nil (q : QSep) (s : str) : re_split q s <> [].
Proof.
  destruct q; simpl;
    [apply split_ahead_not_nil|apply split_ahead_not_nil
    |apply split_blank_not_nil].
Qed.

Lemma re_split_tl_ink (q : QSep) (s : str) :
  ends_clean s -> Forall (fun b => has_ink b = true) (tl (re_split q s)).
Proof.
  intro He. destruct q; simpl.
  - apply split_ahead_tl_ink. exact ahead_bold_ink.
  - apply split_ahead_tl_ink. exact ahead_question_ink.
  - now apply split_blank_tl_ink.
Qed.

(** A stripped text that is not empty splits into blocks with ink. *)
Lemma re_split_stripped_ink (q : QSep) (text : str) :
  strip text <> [] ->
  Forall (fun b => has_ink b = true) (re_split q (strip text)).
Proof.
  intro Hne.
  destruct (strip_fixed_clean (strip text) (strip_strip text)) as [Hs He].
  rewrite (list_hd_tl [] _ (re_split_not_nil q (strip text))).
  constructor; [|now apply re_split_tl_ink].
  destruct (strip text) as [|c r]; [congruence|]. simpl in Hs.
  rewrite (re_split_hd q c r Hs). simpl. now rewrite Hs.
Qed.

Lemma re_split_nil (q : QSep) : re_split q [] = [[]].
Proof. destruct q; reflexivity. Qed.

(** ** Blank text, blank blocks and the structural failure *)

Lemma no_blank_block_helper (text : str) (q_sep : QSep) :
  strip text <> [] ->
  Forall (fun block => strip block <> []) (re_split q_sep (strip text)).
Proof.
  intro H.
  apply (Forall_impl _ (fun b Hb => proj2 (strip_not_nil_iff b) Hb)).
  now apply re_split_stripped_ink.
Qed.

(** X9: when the text is not blank, none of the blocks that the split
    yields is blank: the loop skips no block, so the index in a
    per-question message counts questions. *)
Theorem no_blank_block_in_nonblank_text :
  forall (text : str) (q_sep : QSep),
    strip text <> [] ->
    Forall (fun block => strip block <> []) (re_split q_sep (strip text)).
Proof.
  intros text q_sep H.
  pose proof (re_split_stripped_ink q_sep text H) as Hink.
  rewrite Forall_forall in *. intros b Hb.
  apply strip_not_nil_iff. now apply Hink.
Qed.

(** The text of the example is not blank. *)
Lemma no_blank_block_in_nonblank_text_witness :
  Forall (fun block => strip block <> [])
         (re_split BlankLine (strip Example.text)).
Proof.
  apply (no_blank_block_in_nonblank_text Example.text BlankLine).
  vm_compute. discriminate.
Defined.

Lemma parse_structural_iff_loop (text : str) (q_sep : QSep)
  (opt_regex : OptRegex) (answer_prefix explanation_prefix : str) :
  parse_guided_format text q_sep opt_regex answer_prefix explanation_prefix
    = Raise (msg_failed msg_no_questions) <->
  parse_blocks opt_regex answer_prefix explanation_prefix
               (re_split q_sep (strip text)) 1 [] = Ok [].
Proof.
  unfold parse_guided_format, parse_body.
  destruct (parse_blocks opt_regex answer_prefix explanation_prefix
              (re_split q_sep (strip text)) 1 []) as [[|q qs]|e] eqn:E.
  - tauto.
  - split; discriminate.
  - split; [|discriminate]. intro H.
    assert (He : msg_failed e = msg_failed msg_no_questions) by congruence.
    apply msg_failed_inj in He.
    apply parse_blocks_raise in E as (i & qt & E).
    destruct (msg_no_questions_distinct i qt) as (H1 & H2 & H3).
    exfalso. destruct E as [E|[E|E]]; congruence.
Qed.

(** The loop ends with nothing collected exactly on the blank texts. *)
Lemma loop_empty_iff_blank_text (text : str) (q_sep : QSep)
  (opt_regex : OptRegex) (answer_prefix explanation_prefix : str) :
  parse_blocks opt_regex answer_prefix explanation_prefix
               (re_split q_sep (strip text)) 1 [] = Ok [] <->
  strip text = [].
Proof.
  rewrite parse_blocks_nothing. split.
  - intro H. destruct (strip text) as [|c r] eqn:E; [reflexivity|exfalso].
    assert (Hne : strip text <> []) by congruence.
    pose proof (re_split_stripped_ink q_sep text Hne) as Hink.
    rewrite E in Hink.
    destruct (re_split q_sep (c :: r)) as [|b bs] eqn:S.
    + exact (re_split_not_nil _ _ S).
    + apply Forall_inv in Hink. specialize (H b (or_introl eq_refl)).
      apply strip_nil_iff in H. congruence.
  - intros -> b Hb. rewrite re_split_nil in Hb.
    destruct Hb as [<-|[]]. reflexivity.
Qed.


(** ** Failures and successes of the parser *)

Lemma parse_blocks_raise_violation (opt_regex : OptRegex)
  (answer_prefix explanation_prefix : str) (blocks : list str) :
  forall (idx : nat) (qs : list Question) (e : str),
    parse_blocks opt_regex answer_prefix explanation_prefix blocks idx qs
      = Raise e ->
    exists b, In b blocks /\
              violates opt_regex answer_prefix explanation_prefix b = true.
Proof.
  induction blocks as [|b0 rest IH]; intros idx qs e H; simpl in H;
    [discriminate|].
  destruct (violates opt_regex answer_prefix explanation_prefix b0) eqn:V0.
  - exists b0. split; [now left|assumption].
  - destruct (parse_block_sound _ _ _ idx b0 V0) as [E|(q & E & _)];
      rewrite E in H; apply IH in H as (b & Hb & Hv); exists b;
      (split; [now right|assumption]).
Qed.


Lemma parse_block_record (opt_regex : OptRegex)
  (answer_prefix explanation_prefix : str) (idx : nat) (block : str) :
  strip block <> [] ->
  violates opt_regex answer_prefix explanation_prefix block = false ->
  parse_block opt_regex answer_prefix explanation_prefix idx block
  = Ok (Some (record_of opt_regex answer_prefix explanation_prefix block)).
Proof.
  intros Hne V. rewrite parse_block_validate by assumption.
  unfold violates in V.
  destruct (strip block) as [|c r] eqn:E; [congruence|]. simpl in V.
  apply orb_false_iff in V as [V V3]. apply orb_false_iff in V as [V1 V2].
  unfold validate. rewrite V1, V2, V3. reflexivity.
Qed.

Lemma parse_blocks_all_records (opt_regex : OptRegex)
  (answer_prefix explanation_prefix : str) (blocks : list str) :
  forall (idx : nat) (qs : list Question),
    Forall (fun b => strip b <> []) blocks ->
    (forall b, In b blocks ->
       violates opt_regex answer_prefix explanation_prefix b = false) ->
    parse_blocks opt_regex answer_prefix explanation_prefix blocks idx qs
    = Ok (qs ++ map (record_of opt_regex answer_prefix explanation_prefix)
                    blocks).
Proof.
  induction blocks as [|b0 rest IH]; intros idx qs Hne Hv; simpl.
  - now rewrite app_nil_r.
  - rewrite parse_block_record;
      [|exact (Forall_inv Hne)|apply Hv; now left].
    rewrite IH; [|exact (Forall_inv_tail Hne)|intros b Hb; apply Hv; now right].
    now rewrite <- app_assoc.
Qed.

Lemma parse_ok_inv (text : str) (q_sep : QSep) (opt_regex : OptRegex)
  (answer_prefix explanation_prefix : str) (questions : list Question) :
  parse_guided_format text q_sep opt_regex answer_prefix explanation_prefix
    = Ok questions ->
  strip text <> [] /\
  (forall b, In b (re_split q_sep (strip text)) ->
     violates opt_regex answer_prefix explanation_prefix b = false) /\
  questions = map (record_of opt_regex answer_prefix explanation_prefix)
                  (re_split q_sep (strip text)).
Proof.
  unfold parse_guided_format, parse_body. intro H.
  destruct (parse_blocks opt_regex answer_prefix explanation_prefix
              (re_split q_sep (strip text)) 1 [])
    as [[|q qs]|e0] eqn:E; try discriminate.
  injection H as <-.
  assert (Hne : strip text <> []).
  { intro Hb.
    apply (loop_empty_iff_blank_text text q_sep opt_regex answer_prefix
             explanation_prefix) in Hb.
    congruence. }
  assert (Hv : forall b, In b (re_split q_sep (strip text)) ->
               violates opt_regex answer_prefix explanation_prefix b = false).
  { intros b Hb.
    destruct (violates opt_regex answer_prefix explanation_prefix b) eqn:V;
      [|reflexivity].
    destruct (parse_blocks_first_violation opt_regex answer_prefix
                explanation_prefix (re_split q_sep (strip text)) 1 []
                (ex_intro _ b (conj Hb V)))
      as (i & b1 & msg & _ & _ & _ & _ & Hp).
    congruence. }
  repeat split; auto.
  rewrite (parse_blocks_all_records opt_regex answer_prefix
             explanation_prefix _ 1 []
             (no_blank_block_helper text q_sep Hne) Hv) in E.
  simpl in E. congruence.
Qed.

(** X4: the parser succeeds exactly when the text is not blank and no
    block breaks a requirement, and it then returns one record per block,
    in the order of the blocks: the record of a block holds its cleaned
    first line, the options, the answer and the explanation its scan
    ended with. *)
Theorem parse_success_characterised :
  forall (text : str) (q_sep : QSep) (opt_regex : OptRegex)
         (answer_prefix explanation_prefix : str)
         (questions : list Question),
    parse_guided_format text q_sep opt_regex answer_prefix
                        explanation_prefix = Ok questions <->
    strip text <> [] /\
    (forall b, In b (re_split q_sep (strip text)) ->
       violates opt_regex answer_prefix explanation_prefix b = false) /\
    questions = map (record_of opt_regex answer_prefix explanation_prefix)
                    (re_split q_sep (strip text)).
Proof.
  intros text q_sep opt_regex ap ep questions. split.
  - apply parse_ok_inv.
  - intros (Hne & Hv & ->). unfold parse_guided_format, parse_body.
    rewrite (parse_blocks_all_records opt_regex ap ep _ 1 []
               (no_blank_block_helper text q_sep Hne) Hv).
    simpl.
    destruct (re_split q_sep (strip text)) eqn:S;
      [exfalso; exact (re_split_not_nil _ _ S)|reflexivity].
Qed.

(** ** What a scan collects *)
Section ScanFacts.

Variable opt_regex : OptRegex.
Variables answer_prefix explanation_prefix : str.

Local Abbreviation scan_line'' :=
  (scan_line opt_regex answer_prefix explanation_prefix).
Local Abbreviation scan_lines'' :=
  (scan_lines opt_regex answer_prefix explanation_prefix).
Local Abbreviation adds_option' :=
  (adds_option opt_regex answer_prefix explanation_prefix).
Local Abbreviation is_explanation_line' :=
  (is_explanation_line opt_regex answer_prefix explanation_prefix).

Lemma scan_line_answer_stripped (st : Scan) (raw : str) :
  (forall a, s_answer st = Some a -> strip a = a) ->
  forall a, s_answer (scan_line'' st raw) = Some a -> strip a = a.
Proof.
  intros H a. unfold scan_line.
  repeat match goal with
         | |- context [if ?b then _ else _] => destruct b
         end; simpl; try apply H; intros [= <-]; apply strip_strip.
Qed.

Lemma scan_line_explanation_stripped (st : Scan) (raw : str) :
  (forall x, s_explanation st = Some x -> strip x = x) ->
  forall x, s_explanation (scan_line'' st raw) = Some x -> strip x = x.
Proof.
  intros H x. unfold scan_line.
  repeat match goal with
         | |- context [if ?b then _ else _] => destruct b
         end; simpl; try apply H; intros [= <-]; apply strip_strip.
Qed.

Lemma scan_lines_fields_stripped (lines : list str) :
  (forall a, s_answer (scan_lines'' lines) = Some a -> strip a = a) /\
  (forall x, s_explanation (scan_lines'' lines) = Some x -> strip x = x).
Proof.
  unfold scan_lines.
  assert (G : forall st,
    (forall a, s_answer st = Some a -> strip a = a) ->
    (forall x, s_explanation st = Some x -> strip x = x) ->
    (forall a, s_answer (fold_left scan_line'' lines st) = Some a ->
               strip a = a) /\
    (forall x, s_explanation (fold_left scan_line'' lines st) = Some x ->
               strip x = x)).
  { induction lines as [|l r IH]; intros st Ha Hx; simpl; [now split|].
    apply IH.
    - now apply scan_line_answer_stripped.
    - now apply scan_line_explanation_stripped. }
  apply G; discriminate.
Qed.

(** One line appends its cleaned text to the options, or leaves them. *)
Lemma scan_line_options (st : Scan) (raw : str) :
  s_options (scan_line'' st raw) =
  s_options st ++ (if adds_option' raw then [clean_of raw] else []).
Proof.
  unfold adds_option, is_option_line, is_starred_unlabeled,
    has_answer_prefix, has_explanation_prefix, is_blank, is_starred,
    clean_of, line_of, scan_line.
  destruct (is_empty (strip raw)); simpl; [now rewrite app_nil_r|].
  destruct (re_match opt_regex (strip (strip_stars (strip raw)))); simpl;
    [reflexivity|].
  destruct (startswith (lower (strip raw)) (lower answer_prefix)); simpl;
    [now rewrite app_nil_r|].
  destruct (startswith (lower (strip raw)) (lower explanation_prefix)); simpl;
    [now rewrite app_nil_r|].
  destruct (startswith (strip raw) [STAR]); simpl;
    [reflexivity|now rewrite app_nil_r].
Qed.

Lemma fold_scan_options (lines : list str) :
  forall st,
    s_options (fold_left scan_line'' lines st) =
    s_options st ++ map clean_of (filter adds_option' lines).
Proof.
  induction lines as [|l r IH]; intro st; simpl; [now rewrite app_nil_r|].
  rewrite IH, scan_line_options.
  destruct (adds_option' l); simpl;
    [now rewrite <- app_assoc|now rewrite app_nil_r].
Qed.

Lemma scan_line_keeps_explanation (st : Scan) (raw : str) :
  is_explanation_line' raw = false ->
  s_explanation (scan_line'' st raw) = s_explanation st.
Proof.
  unfold is_explanation_line, has_answer_prefix, has_explanation_prefix,
    is_blank, clean_of, line_of, scan_line.
  destruct (is_empty (strip raw)); [reflexivity|]. simpl negb. cbv iota.
  destruct (re_match opt_regex (strip (strip_stars (strip raw)))); simpl;
    [reflexivity|].
  destruct (startswith (lower (strip raw)) (lower answer_prefix)); simpl;
    [reflexivity|].
  destruct (startswith (lower (strip raw)) (lower explanation_prefix));
    simpl; [discriminate|].
  destruct (startswith (strip raw) [STAR]); reflexivity.
Qed.

Lemma scan_line_sets_explanation (st : Scan) (raw : str) :
  is_explanation_line' raw = true ->
  s_explanation (scan_line'' st raw) =
  Some (explanation_line_value explanation_prefix raw).
Proof.
  unfold is_explanation_line, has_answer_prefix, has_explanation_prefix,
    is_blank, clean_of, line_of, explanation_line_value, scan_line.
  destruct (is_empty (strip raw)); [discriminate|]. simpl negb. cbv iota.
  destruct (re_match opt_regex (strip (strip_stars (strip raw)))); simpl;
    [discriminate|].
  destruct (startswith (lower (strip raw)) (lower answer_prefix)); simpl;
    [discriminate|].
  destruct (startswith (lower (strip raw)) (lower explanation_prefix));
    simpl; [reflexivity|discriminate].
Qed.

Lemma fold_scan_keeps_explanation (post : list str) :
  forall st,
    (forall x, In x post -> is_explanation_line' x = false) ->
    s_explanation (fold_left scan_line'' post st) = s_explanation st.
Proof.
  induction post as [|x post IH]; intros st H; simpl; [reflexivity|].
  rewrite IH by (intros y Hy; apply H; now right).
  apply scan_line_keeps_explanation. apply H. now left.
Qed.

End ScanFacts.

(** X5: the options a scan ends with are the cleaned texts of the lines
    that match the option pattern and of the starred unlabeled lines, in
    the order of the lines; no other line contributes an option and none
    is dropped or reordered. *)
Theorem options_are_the_option_lines_in_order :
  forall (opt_regex : OptRegex) (answer_prefix explanation_prefix : str)
         (lines : list str),
    s_options (scan_lines opt_regex answer_prefix explanation_prefix lines)
    = map clean_of
          (filter (adds_option opt_regex answer_prefix explanation_prefix)
                  lines).
Proof.
  intros opt_regex ap ep lines. unfold scan_lines.
  now rewrite fold_scan_options.
Qed.

(** X6: the explanation a scan ends with is the one of the last line that
    reaches the explanation branch: its text after the prefix, stripped.
    A line that matches the option pattern or starts with the answer
    prefix does not reach that branch, whatever its start. *)
Theorem last_explanation_line_wins :
  forall (opt_regex : OptRegex) (answer_prefix explanation_prefix : str)
         (pre post : list str) (l : str),
    is_explanation_line opt_regex answer_prefix explanation_prefix l = true ->
    (forall x, In x post ->
       is_explanation_line opt_regex answer_prefix explanation_prefix x
       = false) ->
    s_explanation (scan_lines opt_regex answer_prefix explanation_prefix
                              (pre ++ l :: post))
    = Some (strip (slice_from (length explanation_prefix) (strip l))).
Proof.
  intros opt_regex ap ep pre post l Hl Hpost. unfold scan_lines.
  rewrite fold_left_app. simpl fold_left.
  rewrite fold_scan_keeps_explanation by assumption.
  now rewrite scan_line_sets_explanation.
Qed.

(** Two explanation lines in one block: the second is kept. *)
Lemma last_explanation_line_wins_witness :
  s_explanation (scan_lines LowerParen (lit "Answer:") (lit "Explanation:")
                   ([lit "a) 3"; lit "Explanation: first"]
                    ++ lit "explanation:  second " :: [lit "b) 4"]))
  = Some (strip (slice_from (length (lit "Explanation:"))
                            (strip (lit "explanation:  second ")))).
Proof.
  apply (last_explanation_line_wins LowerParen (lit "Answer:")
           (lit "Explanation:") [lit "a) 3"; lit "Explanation: first"]
           [lit "b) 4"] (lit "explanation:  second ")).
  - vm_compute. reflexivity.
  - intros x [<-|[]]. vm_compute. reflexivity.
Defined.

(** ** The records of a successful parse *)

Lemma parse_blocks_Forall (P : Question -> Prop) (opt_regex : OptRegex)
  (answer_prefix explanation_prefix : str) :
  (forall idx b q,
     parse_block opt_regex answer_prefix explanation_prefix idx b
       = Ok (Some q) -> P q) ->
  forall (blocks : list str) (idx : nat) (qs out : list Question),
    Forall P qs ->
    parse_blocks opt_regex answer_prefix explanation_prefix blocks idx qs
      = Ok out ->
    Forall P out.
Proof.
  intros HP blocks.
  induction blocks as [|b0 rest IH]; intros idx qs out Hqs H; simpl in H.
  - now injection H as <-.
  - destruct (parse_block opt_regex answer_prefix explanation_prefix idx b0)
      as [[q|]|e] eqn:E; [| |discriminate].
    + apply (IH (S idx) (qs ++ [q]) out); [|exact H].
      apply Forall_app. split; [exact Hqs|].
      constructor; [now apply (HP idx b0)|constructor].
    + now apply (IH (S idx) qs out).
Qed.

Lemma parse_ok_Forall (P : Question -> Prop) (text : str) (q_sep : QSep)
  (opt_regex : OptRegex) (answer_prefix explanation_prefix : str)
  (questions : list Question) :
  (forall idx b q,
     parse_block opt_regex answer_prefix explanation_prefix idx b
       = Ok (Some q) -> P q) ->
  parse_guided_format text q_sep opt_regex answer_prefix explanation_prefix
    = Ok questions ->
  Forall P questions.
Proof.
  intros HP H. unfold parse_guided_format, parse_body in H.
  destruct (parse_blocks opt_regex answer_prefix explanation_prefix
              (re_split q_sep (strip text)) 1 []) as [out|e] eqn:E;
    [|discriminate].
  assert (out = questions) by (destruct out; congruence). subst out.
  now apply (parse_blocks_Forall P _ _ _ HP _ _ _ _ (Forall_nil _) E).
Qed.

Lemma parse_block_is_record_of (opt_regex : OptRegex)
  (answer_prefix explanation_prefix : str) (idx : nat) (block : str)
  (q : Question) :
  parse_block opt_regex answer_prefix explanation_prefix idx block
    = Ok (Some q) ->
  q = record_of opt_regex answer_prefix explanation_prefix block /\
  2 <= length (options q) /\
  falsy (s_answer (block_scan opt_regex answer_prefix explanation_prefix
                              block)) = false /\
  falsy (s_explanation (block_scan opt_regex answer_prefix
                                   explanation_prefix block)) = false.
Proof.
  intro H.
  destruct (strip block) as [|c r] eqn:E.
  - rewrite parse_block_blank in H by assumption. discriminate.
  - rewrite parse_block_validate in H by congruence.
    destruct (validate_cases idx (block_question_text block)
                (block_scan opt_regex answer_prefix explanation_prefix block))
      as [[_ V]|[(_ & _ & V)|[(_ & _ & _ & V)|(H1 & H2 & H3 & V)]]];
      rewrite V in H; try discriminate.
    injection H as <-. now repeat split.
Qed.

Lemma falsy_false_held (v : option str) :
  falsy v = false -> v = Some (held v) /\ held v <> [].
Proof.
  destruct v as [[|c r]|]; simpl; try discriminate.
  intros _. split; [reflexivity|discriminate].
Qed.

(** X3: every record a successful parse returns has two options or more,
    an answer and an explanation that are not empty, and no field with
    white space at either end: the question text, each option, the answer
    and the explanation are fixed by [strip]. *)
Theorem parsed_records_well_formed :
  forall (text : str) (q_sep : QSep) (opt_regex : OptRegex)
         (answer_prefix explanation_prefix : str)
         (questions : list Question) (q : Question),
    parse_guided_format text q_sep opt_regex answer_prefix
                        explanation_prefix = Ok questions ->
    In q questions ->
    2 <= length (options q) /\
    answer q <> [] /\
    explanation q <> [] /\
    strip (question q) = question q /\
    Forall (fun o => strip o = o) (options q) /\
    strip (answer q) = answer q /\
    strip (explanation q) = explanation q.
Proof.
  intros text q_sep opt_regex ap ep questions q Hp Hq.
  revert q Hq. apply Forall_forall.
  apply (parse_ok_Forall _ text q_sep opt_regex ap ep questions); [|exact Hp].
  intros idx b q Hb.
  pose proof (parse_block_options_stripped _ _ _ _ _ _ Hb) as Hopts.
  apply parse_block_is_record_of in Hb as (-> & H2 & Ha & He).
  apply falsy_false_held in Ha as [Ha Ha'].
  apply falsy_false_held in He as [He He'].
  destruct (scan_lines_fields_stripped opt_regex ap ep
              (tl (block_lines b))) as [Sa Se].
  unfold record_of in *. simpl in *.
  split; [exact H2|]. split; [exact Ha'|]. split; [exact He'|].
  split; [unfold block_question_text, clean_question; apply strip_strip|].
  split; [exact Hopts|].
  split; [apply Sa; exact Ha|apply Se; exact He].
Qed.

(** The record of the example text. *)
Lemma parsed_records_well_formed_witness :
  2 <= length (options Example.record) /\
  answer Example.record <> [] /\
  explanation Example.record <> [] /\
  strip (question Example.record) = question Example.record /\
  Forall (fun o => strip o = o) (options Example.record) /\
  strip (answer Example.record) = answer Example.record /\
  strip (explanation Example.record) = explanation Example.record.
Proof.
  apply (parsed_records_well_formed Example.text QuestionLabel LowerParen
           (lit "Answer:") (lit "Explanation:") [Example.record]
           Example.record).
  - vm_compute. reflexivity.
  - left. reflexivity.
Defined.

(** ** Prefixes that shadow each other *)

Lemma startswith_trans (s p q : str) :
  startswith s p = true -> startswith p q = true -> startswith s q = true.
Proof.
  revert s p. induction q as [|c q IH]; intros s p Hsp Hpq;
    [destruct s; reflexivity|].
  destruct p as [|a p]; [discriminate|].
  destruct s as [|b s]; [discriminate|].
  cbn [startswith] in *.
  apply andb_true_iff in Hsp as [Hab Hsp].
  apply andb_true_iff in Hpq as [Hca Hpq].
  apply Ascii.eqb_eq in Hab, Hca. subst.
  rewrite Ascii.eqb_refl. simpl. now apply (IH s p).
Qed.

Lemma shadowed_no_explanation_line (opt_regex : OptRegex)
  (answer_prefix explanation_prefix : str) (raw : str) :
  startswith (lower explanation_prefix) (lower answer_prefix) = true ->
  is_explanation_line opt_regex answer_prefix explanation_prefix raw = false.
Proof.
  intro H. unfold is_explanation_line, has_answer_prefix,
    has_explanation_prefix.
  destruct (startswith (lower (line_of raw)) (lower explanation_prefix))
    eqn:E; [|apply andb_false_r].
  rewrite (startswith_trans _ _ _ E H). simpl.
  now rewrite andb_false_r.
Qed.

(** X7: when the explanation prefix starts, case ignored, with the answer
    prefix (the two are equal, or the answer prefix is empty), no line
    ever reaches the explanation branch, so no block can pass the third
    check: the parser raises on every text and never returns records. *)
Theorem shadowed_explanation_prefix_always_fails :
  forall (answer_prefix explanation_prefix : str),
    startswith (lower explanation_prefix) (lower answer_prefix) = true ->
    forall (text : str) (q_sep : QSep) (opt_regex : OptRegex),
    exists e,
      parse_guided_format text q_sep opt_regex answer_prefix
                          explanation_prefix = Raise e.
Proof.
  intros ap ep Hsh text q_sep opt_regex.
  destruct (parse_guided_format text q_sep opt_regex ap ep) as [qs|e] eqn:P;
    [exfalso|now exists e].
  assert (Hall : Forall (fun q : Question => False) qs).
  { apply (parse_ok_Forall _ text q_sep opt_regex ap ep qs); [|exact P].
    intros idx b q Hb.
    apply parse_block_is_record_of in Hb as (_ & _ & _ & He).
    unfold block_scan, scan_lines in He.
    rewrite fold_scan_keeps_explanation in He; [discriminate|].
    intros x _. now apply shadowed_no_explanation_line. }
  unfold parse_guided_format, parse_body in P.
  destruct (parse_blocks opt_regex ap ep (re_split q_sep (strip text)) 1 [])
    as [[|q out]|e]; try discriminate.
  injection P as <-. now apply Forall_inv in Hall.
Qed.

(** With the answer prefix left empty, the example text is rejected. *)
Lemma shadowed_explanation_prefix_always_fails_witness :
  exists e,
    parse_guided_format Example.text QuestionLabel LowerParen []
                        (lit "Explanation:") = Raise e.
Proof.
  apply (shadowed_explanation_prefix_always_fails [] (lit "Explanation:")).
  reflexivity.
Defined.

(** ** Letter case *)

Ltac each_char c :=
  destruct c as [[] [] [] [] [] [] [] []]; vm_compute; reflexivity.

Lemma isspace_lower_char (c : ascii) : isspace (lower_char c) = isspace c.
Proof. each_char c. Qed.

Lemma lower_char_idem (c : ascii) : lower_char (lower_char c) = lower_char c.
Proof. each_char c. Qed.

Lemma is_marker_lower_char (c : ascii) :
  is_marker_char (lower_char c) = is_marker_char c.
Proof. each_char c. Qed.

Lemma rparen_lower_char (c : ascii) :
  Ascii.eqb (lower_char c) RPAREN = Ascii.eqb c RPAREN.
Proof. each_char c. Qed.

Lemma lower_idem (s : str) : lower (lower s) = lower s.
Proof.
  unfold lower. rewrite map_map. apply map_ext. exact lower_char_idem.
Qed.

Lemma drop_while_lower (p : ascii -> bool) (s : str) :
  (forall c, p (lower_char c) = p c) ->
  drop_while p (lower s) = lower (drop_while p s).
Proof.
  intro Hp. induction s as [|c r IH]; simpl; [reflexivity|].
  rewrite Hp. destruct (p c); [exact IH|reflexivity].
Qed.

Lemma lower_rev (s : str) : lower (rev s) = rev (lower s).
Proof. unfold lower. apply map_rev. Qed.

(** [strip] and [lower] commute. *)
Lemma strip_lower (s : str) : strip (lower s) = lower (strip s).
Proof.
  unfold strip, lstrip, rstrip.
  rewrite (drop_while_lower isspace s isspace_lower_char).
  rewrite <- lower_rev.
  rewrite (drop_while_lower isspace _ isspace_lower_char).
  now rewrite lower_rev.
Qed.

(** The marker-stripping rule and [lower] commute. *)
Lemma strip_marker_lower (s : str) :
  strip_marker (lower s) = lower (strip_marker s).
Proof.
  destruct s as [|c r]; [reflexivity|].
  unfold strip_marker. cbn [lower map]. fold (lower r).
  rewrite is_marker_lower_char.
  destruct (is_marker_char c); [|reflexivity].
  rewrite (drop_while_lower is_marker_char r is_marker_lower_char).
  destruct (drop_while is_marker_char r) as [|p r']; [reflexivity|].
  cbn [lower map]. fold (lower r'). rewrite rparen_lower_char.
  destruct (Ascii.eqb p RPAREN); [|reflexivity].
  apply (drop_while_lower isspace r' isspace_lower_char).
Qed.

(** Texts equal up to letter case have normal forms equal up to case. *)
Lemma clean_option_lower (o1 o2 : str) :
  lower o1 = lower o2 -> lower (clean_option o1) = lower (clean_option o2).
Proof.
  intro H. unfold clean_option.
  now rewrite <- !strip_lower, <- !strip_marker_lower, H.
Qed.

Lemma next_index_ext (c1 c2 : str -> bool) (l1 l2 : list str) :
  Forall2 (fun o1 o2 => c1 o1 = c2 o2) l1 l2 ->
  forall start default,
    next_index c1 (enumerate start l1) default
    = next_index c2 (enumerate start l2) default.
Proof.
  induction 1 as [|o1 o2 l1 l2 Ho Hl IH]; intros s d; simpl; [reflexivity|].
  rewrite Ho. destruct (c2 o2); [reflexivity|apply IH].
Qed.

(** X8: the choice of the correct option ignores letter case: two records
    whose answers are equal up to case and whose options are pairwise
    equal up to case get the same [correct_option_id]. *)
Theorem correct_option_ignores_case :
  forall (q1 q2 : Question),
    lower (answer q1) = lower (answer q2) ->
    Forall2 (fun o1 o2 => lower o1 = lower o2) (options q1) (options q2) ->
    correct_option_id q1 = correct_option_id q2.
Proof.
  intros q1 q2 Ha Ho. unfold correct_option_id.
  apply next_index_ext.
  eapply Forall2_impl; [|exact Ho].
  intros o1 o2 H. simpl in H. unfold answer_matches.
  rewrite <- !strip_lower, Ha, (clean_option_lower o1 o2 H).
  reflexivity.
Qed.

(** The record of the example and the same record in capitals. *)
Lemma correct_option_ignores_case_witness :
  correct_option_id
    (mkQuestion (lit "Which?") [lit "A) PARIS"; lit "b) Rome"]
                (lit "rome") (lit "Capital."))
  = correct_option_id
      (mkQuestion (lit "Which?") [lit "a) paris"; lit "B) ROME"]
                  (lit "ROME") (lit "Capital.")).
Proof.
  apply (correct_option_ignores_case
           (mkQuestion (lit "Which?") [lit "A) PARIS"; lit "b) Rome"]
                       (lit "rome") (lit "Capital."))
           (mkQuestion (lit "Which?") [lit "a) paris"; lit "B) ROME"]
                       (lit "ROME") (lit "Capital."))).
  - vm_compute. reflexivity.
  - repeat constructor.
Defined.

(** ** Shape of the document *)


Lemma enumerate_fst_ge {A : Type} (l : list A) :
  forall start p, In p (enumerate start l) -> start <= fst p.
Proof.
  induction l as [|x r IH]; intros s p H; simpl in H; [contradiction|].
  destruct H as [<-|H]; [simpl; lia|]. apply IH in H. lia.
Qed.

(** Numbering a list by an injective naming gives distinct names. *)
Lemma NoDup_named {A B C : Type} (name : nat -> C) (f : nat * A -> B)
  (g : B -> C) (l : list A) :
  (forall n m, name n = name m -> n = m) ->
  (forall p, g (f p) = name (fst p)) ->
  forall start, NoDup (map g (map f (enumerate start l))).
Proof.
  intros Hinj Hg. induction l as [|x r IH]; intro s; simpl; constructor.
  - rewrite Hg. simpl. rewrite map_map. intro Hin.
    apply in_map_iff in Hin as (p & Hp & Hin).
    rewrite Hg in Hp. apply Hinj in Hp.
    apply enumerate_fst_ge in Hin. lia.
  - apply IH.
Qed.

Lemma option_name_inj (prefix : str) (n m : nat) :
  Some (prefix ++ str_of_nat n) = Some (prefix ++ str_of_nat m) -> n = m.
Proof.
  intros [= H]. apply app_inv_head in H. now apply str_of_nat_inj.
Qed.

(** X11: identifiers are never repeated: the items of a document have
    pairwise distinct identifiers, and so have the response choices of
    each item, whatever the number of questions and options. *)
Theorem identifiers_are_distinct :
  forall (questions : list Question) (points : str),
    NoDup (idents (findall (create_qti_bytes questions points) (lit "item")))
    /\
    forall it,
      In it (findall (create_qti_bytes questions points) (lit "item")) ->
      NoDup (idents (response_labels it)).
Proof.
  intros questions points. split.
  - rewrite items_of_create_qti_bytes. unfold idents.
    apply (NoDup_named (fun n => Some (lit "q" ++ str_of_nat (n + 1)))).
    + intros n m H. apply option_name_inj in H. lia.
    + intros [i q]. reflexivity.
  - intros it Hin. apply In_nth_error in Hin as [i Hi].
    apply nth_item_inv in Hi as (q & _ & ->).
    rewrite response_labels_item. unfold idents.
    apply (NoDup_named (fun n => Some (lit "option" ++ str_of_nat n))).
    + intros n m H. now apply option_name_inj in H.
    + intros [j o]. reflexivity.
Qed.


(** ** From the parser to the serializer *)

Lemma correct_option_id_match (q : Question) (k : nat) (o : str) :
  nth_error (options q) k = Some o -> answer_matches q o = true ->
  exists m o',
    m <= k /\ nth_error (options q) m = Some o' /\
    answer_matches q o' = true /\ correct_option_id q = m + 1.
Proof.
  intros Hn Hc.
  destruct (first_position (answer_matches q) (options q) k o Hn Hc)
    as (m & o' & Hm & Hnm & Hco & Hf).
  exists m, o'. repeat split; auto.
  unfold correct_option_id. rewrite Nat.add_comm.
  now apply (next_index_first _ _ 1 1 m o').
Qed.


(** ** The preview of [main] *)

Lemma is_correct_answer_matches (q : Question) (opt : str) :
  App.is_correct q opt = answer_matches q opt.
Proof.
  unfold App.is_correct, answer_matches, clean_option.
  now rewrite strip_strip.
Qed.

(** X14: the preview and the document agree on the options that match,
    and differ when none does.  An option gets the check mark in the
    preview exactly when it meets the condition of the serializer; when
    some option is marked, the option the document names correct is the
    first marked one; when no option is marked, the document still names
    the first option correct, which the preview shows unmarked. *)
Theorem preview_marks_and_named_option :
  forall (q : Question),
    (forall opt, App.is_correct q opt = answer_matches q opt) /\
    ((exists opt, In opt (options q) /\ App.is_correct q opt = true) ->
     exists o,
       nth_error (options q) (correct_option_id q - 1) = Some o /\
       App.is_correct q o = true /\
       forall j x, j < correct_option_id q - 1 ->
                   nth_error (options q) j = Some x ->
                   App.is_correct q x = false) /\
    ((forall opt, In opt (options q) -> App.is_correct q opt = false) ->
     correct_option_id q = 1 /\
     forall o, nth_error (options q) 0 = Some o ->
               App.is_correct q o = false).
Proof.
  intro q. split; [apply is_correct_answer_matches|]. split.
  - intros (opt & Hin & Hc). rewrite is_correct_answer_matches in Hc.
    apply In_nth_error in Hin as [k Hk].
    destruct (first_position (answer_matches q) (options q) k opt Hk Hc)
      as (m & o & Hm & Hnm & Hco & Hf).
    assert (Hid : correct_option_id q = m + 1).
    { unfold correct_option_id. rewrite Nat.add_comm.
      now apply (next_index_first _ _ 1 1 m o). }
    rewrite Hid. replace (m + 1 - 1) with m by lia.
    exists o. split; [exact Hnm|].
    split; [now rewrite is_correct_answer_matches|].
    intros j x Hj Hx. rewrite is_correct_answer_matches. now apply (Hf j).
  - intro Hnone. split.
    + unfold correct_option_id. apply next_index_default.
      intros o Ho. rewrite <- is_correct_answer_matches. now apply Hnone.
    + intros o Ho. apply Hnone. now apply nth_error_In in Ho.
Qed.

(** A record with a match and a record without. *)
Lemma preview_marks_and_named_option_witness :
  (exists o,
     nth_error (options Example.record)
               (correct_option_id Example.record - 1) = Some o /\
     App.is_correct Example.record o = true /\
     forall j x, j < correct_option_id Example.record - 1 ->
                 nth_error (options Example.record) j = Some x ->
                 App.is_correct Example.record x = false)
  /\
  (correct_option_id Example.nowhere = 1 /\
   forall o, nth_error (options Example.nowhere) 0 = Some o ->
             App.is_correct Example.nowhere o = false).
Proof.
  split.
  - apply (proj1 (proj2 (preview_marks_and_named_option Example.record))).
    exists (lit "b) 4"). split; [right; left; reflexivity|].
    vm_compute. reflexivity.
  - apply (proj2 (proj2 (preview_marks_and_named_option Example.nowhere))).
    intros opt [<-|[<-|[]]]; vm_compute; reflexivity.
Defined.

(** ** What the split keeps *)

Lemma join_push_head (c : ascii) (l : list str) :
  l <> [] -> Example.join_lines (push_head c l) = c :: Example.join_lines l.
Proof. destruct l as [|h [|h' t]]; simpl; congruence. Qed.

Lemma join_new_piece (l : list str) :
  l <> [] -> Example.join_lines ([] :: l) = NL :: Example.join_lines l.
Proof. destruct l; simpl; congruence. Qed.

Lemma join_split_ahead (ahead : str -> bool) (s : str) :
  Example.join_lines (split_ahead ahead s) = s.
Proof.
  induction s as [|c r IH]; [reflexivity|]. cbn [split_ahead].
  destruct (Ascii.eqb c NL && ahead r) eqn:E.
  - rewrite join_new_piece by apply split_ahead_not_nil. rewrite IH.
    apply andb_true_iff in E as [E _]. apply Ascii.eqb_eq in E. now subst c.
  - rewrite join_push_head by apply split_ahead_not_nil. now rewrite IH.
Qed.

Lemma concat_push_head (c : ascii) (l : list str) :
  concat (push_head c l) = c :: concat l.
Proof. destruct l; reflexivity. Qed.

Lemma gap_length_space (s : str) :
  forall m, gap_length s = Some m -> all_space (firstn m s) = true.
Proof.
  unfold all_space.
  induction s as [|c r IH]; simpl; intros m H; [discriminate|].
  destruct (isspace c) eqn:Hc; [|discriminate].
  destruct (gap_length r) as [k|].
  - injection H as <-. simpl. rewrite Hc. simpl. now apply IH.
  - destruct (Ascii.eqb c NL); [|discriminate]. injection H as <-.
    simpl. now rewrite Hc.
Qed.

Lemma split_blank_ink (s : str) :
  forall skip,
    all_space (firstn skip s) = true ->
    filter (fun c => negb (isspace c)) (concat (split_blank skip s))
    = filter (fun c => negb (isspace c)) s.
Proof.
  induction s as [|c r IH]; intros skip H; [destruct skip; reflexivity|].
  destruct skip as [|k]; cbn [split_blank].
  - destruct (Ascii.eqb c NL) eqn:Hn.
    + destruct (gap_length r) as [m|] eqn:E.
      * cbn [concat app]. rewrite (IH m (gap_length_space r m E)).
        cbn [filter]. now rewrite (isspace_NL_char c Hn).
      * rewrite concat_push_head. cbn [filter]. now rewrite (IH 0).
    + rewrite concat_push_head. cbn [filter]. now rewrite (IH 0).
  - unfold all_space in H. cbn [firstn forallb] in H.
    apply andb_true_iff in H as [Hc H].
    cbn [filter]. rewrite Hc. simpl. now apply IH.
Qed.

Lemma split_ahead_tl_prefix (ahead : str -> bool) (p : ascii) :
  Ascii.eqb p NL = false ->
  (forall r, ahead r = true -> exists r', r = p :: r') ->
  forall s, Forall (fun b => exists b', b = p :: b')
                   (tl (split_ahead ahead s)).
Proof.
  intros Hp Hahead s. induction s as [|c r IH]; simpl; [constructor|].
  destruct (Ascii.eqb c NL && ahead r) eqn:E.
  - simpl. apply andb_true_iff in E as [_ E].
    destruct (Hahead r E) as (r' & ->).
    rewrite (list_hd_tl [] _ (split_ahead_not_nil ahead (p :: r'))).
    constructor; [|exact IH].
    simpl. rewrite Hp. simpl. rewrite push_head_hd. now eexists.
  - rewrite push_head_tl by apply split_ahead_not_nil. exact IH.
Qed.

(** X15: the split loses no text.  With the bold and the question-label
    separators the blocks joined by newlines give back the text, and
    every block after the first starts with the asterisk, respectively
    the letter Q, that the lookahead saw; with the blank-line separator
    the blocks hold all the characters of the text that are not white
    space, in their order. *)
Theorem split_keeps_the_text :
  forall (s : str),
    Example.join_lines (re_split Bold s) = s /\
    Example.join_lines (re_split QuestionLabel s) = s /\
    Forall (fun b => exists b', b = STAR :: b') (tl (re_split Bold s)) /\
    Forall (fun b => exists b', b = "Q"%char :: b')
           (tl (re_split QuestionLabel s)) /\
    filter (fun c => negb (isspace c)) (concat (re_split BlankLine s))
    = filter (fun c => negb (isspace c)) s.
Proof.
  intro s. split; [apply join_split_ahead|].
  split; [apply join_split_ahead|]. split; [|split].
  - apply split_ahead_tl_prefix; [reflexivity|].
    intros r H. unfold ahead_bold in H.
    destruct r as [|c r']; [discriminate|]. cbn [startswith] in H.
    apply andb_true_iff in H as [H _]. apply Ascii.eqb_eq in H.
    subst c. now exists r'.
  - apply split_ahead_tl_prefix; [reflexivity|].
    intros r H. unfold ahead_question in H.
    destruct r as [|c r']; [discriminate|].
    cbn [strip_prefix lit list_ascii_of_string] in H.
    destruct (Ascii.eqb "Q" c) eqn:E; [|discriminate].
    apply Ascii.eqb_eq in E. subst c. now exists r'.
  - apply split_blank_ink. reflexivity.
Qed.

(** ** How the option marker is shown *)

Lemma lstrip_idem (s : str) : lstrip (lstrip s) = lstrip s.
Proof. apply drop_while_clean, drop_while_starts_clean. Qed.

Lemma strip_lstrip (s : str) : strip (lstrip s) = strip s.
Proof. unfold strip. now rewrite lstrip_idem. Qed.

Lemma upper_AD_marker (c : ascii) :
  is_upper_AD c = true ->
  is_marker_char c = true.
Proof. unfold is_marker_char. now intros ->. Qed.

Lemma lower_ad_marker (c : ascii) :
  is_lower_ad c = true ->
  is_marker_char c = true.
Proof. unfold is_marker_char. intros ->. now rewrite orb_true_r. Qed.

Lemma letter_paren_clean (a b : ascii) (rest : str) :
  is_marker_char a = true -> Ascii.eqb b RPAREN = true ->
  clean_option (a :: b :: rest) = strip rest.
Proof.
  intros Ha Hb. unfold clean_option, strip_marker. rewrite Ha.
  assert (Hm : is_marker_char b = false).
  { apply Ascii.eqb_eq in Hb. subst b. reflexivity. }
  cbn [drop_while]. rewrite Hm, Hb. apply strip_lstrip.
Qed.

(** X16: whether the marker of an option line reaches the document
    depends on the option style.  With the two letter styles the text
    shown is the line after its two marker characters, stripped; with
    the bulleted style the marker-stripping rule finds no marker, since
    the line starts with the dot, and the whole line is shown, marker
    included. *)
Theorem marker_shown_by_style :
  forall (s : str),
    (re_match UpperParen s = true \/ re_match LowerParen s = true ->
     clean_option s = strip (slice_from 2 s)) /\
    (re_match BulletUpper s = true ->
     strip_marker s = s /\ clean_option s = strip s).
Proof.
  intro s. split.
  - intros [H|H]; destruct s as [|a [|b rest]]; try discriminate;
      simpl in H; apply andb_true_iff in H as [Ha Hb].
    + now apply letter_paren_clean; [apply upper_AD_marker|].
    + now apply letter_paren_clean; [apply lower_ad_marker|].
  - intro H. destruct s as [|m r]; [discriminate|].
    assert (Hm : is_marker_char m = false).
    { destruct r as [|w [|a [|b r']]]; try discriminate.
      cbn [re_match] in H.
      apply andb_true_iff in H as [H _]. apply andb_true_iff in H as [H _].
      apply andb_true_iff in H as [H _]. apply Nat.eqb_eq in H.
      unfold is_marker_char, is_upper_AD, is_lower_ad. rewrite H.
      reflexivity. }
    assert (Hs : strip_marker (m :: r) = m :: r).
    { unfold strip_marker. now rewrite Hm. }
    split; [exact Hs|]. unfold clean_option. now rewrite Hs.
Qed.

(** An option line of a letter style and one of the bulleted style. *)
Lemma marker_shown_by_style_witness :
  clean_option (lit "b) 4") = strip (slice_from 2 (lit "b) 4")) /\
  (strip_marker (chr 183 :: lit " A) Paris") = chr 183 :: lit " A) Paris" /\
   clean_option (chr 183 :: lit " A) Paris")
   = strip (chr 183 :: lit " A) Paris")).
Proof.
  split.
  - apply (proj1 (marker_shown_by_style (lit "b) 4"))).
    right. vm_compute. reflexivity.
  - apply (proj2 (marker_shown_by_style (chr 183 :: lit " A) Paris"))).
    vm_compute. reflexivity.
Defined.

Lemma drop_while_app_all (p : ascii -> bool) (x y : str) :
  forallb p x = true -> drop_while p (x ++ y) = drop_while p y.
Proof.
  induction x as [|c r IH]; simpl; [reflexivity|].
  intro H. apply andb_true_iff in H as [-> H]. now apply IH.
Qed.

Lemma decimal_marker (c : ascii) :
  isdecimal c && negb (Ascii.eqb c "0") = isdecimal c && is_marker_char c.
Proof. each_char c. Qed.

Lemma digits_without_zero (ds : str) :
  all_decimal ds = true -> ~ In "0"%char ds ->
  forallb is_marker_char ds = true.
Proof.
  unfold all_decimal. induction ds as [|c r IH]; simpl; [reflexivity|].
  intros H Hz. apply andb_true_iff in H as [Hc H].
  pose proof (decimal_marker c) as M. rewrite Hc in M. simpl in M.
  destruct (Ascii.eqb c "0") eqn:E.
  - apply Ascii.eqb_eq in E. exfalso. apply Hz. now left.
  - simpl in M. rewrite <- M. simpl. apply IH; [exact H|].
    intro Hin. apply Hz. now right.
Qed.

Lemma digits_with_zero (ds y : str) :
  all_decimal ds = true -> In "0"%char ds ->
  exists t, drop_while is_marker_char (ds ++ y) = "0"%char :: t.
Proof.
  unfold all_decimal. induction ds as [|c r IH]; simpl; [contradiction|].
  intros H Hz. apply andb_true_iff in H as [Hc H].
  pose proof (decimal_marker c) as M. rewrite Hc in M. simpl in M.
  destruct (Ascii.eqb c "0") eqn:E.
  - apply Ascii.eqb_eq in E. subst c. simpl. now eexists.
  - simpl in M. rewrite <- M. apply IH; [exact H|].
    destruct Hz as [->|Hz]; [|exact Hz].
    rewrite Ascii.eqb_refl in E. discriminate.
Qed.

Lemma rparen_classes :
  isdecimal RPAREN = false /\ is_marker_char RPAREN = false.
Proof. split; reflexivity. Qed.

(** X17: with the numeric option style, a line that starts with digits
    and a parenthesis is an option line whatever the digits, but the
    marker-stripping rule knows the digits 1 to 9 only: a number without
    the digit 0 is removed from the text shown, a number with a 0 in it
    (10, 20, ...) stays, and the line is shown with its marker. *)
Theorem numeric_marker_with_zero_is_kept :
  forall (ds rest : str),
    ds <> [] -> all_decimal ds = true ->
    re_match DigitParen (ds ++ RPAREN :: rest) = true /\
    (~ In "0"%char ds ->
     clean_option (ds ++ RPAREN :: rest) = strip rest) /\
    (In "0"%char ds ->
     strip_marker (ds ++ RPAREN :: rest) = ds ++ RPAREN :: rest).
Proof.
  intros ds rest Hne Hd.
  destruct ds as [|d ds']; [congruence|].
  pose proof Hd as Hd0. unfold all_decimal in Hd. simpl in Hd.
  apply andb_true_iff in Hd as [Hd Hds].
  destruct rparen_classes as [Rd Rm].
  split; [|split].
  - cbn [re_match app]. rewrite Hd.
    rewrite (drop_while_app_all isdecimal ds' _ Hds).
    cbn [drop_while]. rewrite Rd. reflexivity.
  - intro Hz. pose proof (digits_without_zero _ Hd0 Hz) as Hm.
    simpl in Hm. apply andb_true_iff in Hm as [Hm Hms].
    unfold clean_option, strip_marker. cbn [app]. rewrite Hm.
    rewrite (drop_while_app_all is_marker_char ds' _ Hms).
    cbn [drop_while]. rewrite Rm, Ascii.eqb_refl. apply strip_lstrip.
  - intro Hz. unfold strip_marker. cbn [app].
    destruct (is_marker_char d) eqn:Hm; [|reflexivity].
    destruct (digits_with_zero (d :: ds') (RPAREN :: rest) Hd0 Hz)
      as [t Ht].
    cbn [app drop_while] in Ht. rewrite Hm in Ht. rewrite Ht.
    reflexivity.
Qed.

(** The options 7) and 10) of a numbered list. *)
Lemma numeric_marker_with_zero_is_kept_witness :
  clean_option (lit "7" ++ RPAREN :: lit " seven") = strip (lit " seven") /\
  strip_marker (lit "10" ++ RPAREN :: lit " ten")
  = lit "10" ++ RPAREN :: lit " ten".
Proof.
  split.
  - apply (proj1 (proj2 (numeric_marker_with_zero_is_kept (lit "7")
             (lit " seven") ltac:(discriminate) eq_refl))).
    intros [H|[]]. discriminate H.
  - apply (proj2 (proj2 (numeric_marker_with_zero_is_kept (lit "10")
             (lit " ten") ltac:(discriminate) eq_refl))).
    right. left. reflexivity.
Defined.

(** ** The question line *)

Lemma drop_while_prefix (p : ascii -> bool) (s : str) :
  exists u, s = u ++ drop_while p s /\ forallb p u = true.
Proof.
  induction s as [|c r (u & IH & Hu)]; simpl; [now exists []|].
  destruct (p c) eqn:E; [|now exists []].
  exists (c :: u). simpl. rewrite E, Hu. split; [now rewrite <- IH|reflexivity].
Qed.

(** [strip] cuts white space off both ends and nothing else. *)
Lemma strip_decompose (s : str) :
  exists u v, s = u ++ strip s ++ v /\
              all_space u = true /\ all_space v = true.
Proof.
  destruct (drop_while_prefix isspace s) as (u & Hs & Hu).
  destruct (drop_while_prefix isspace (rev (drop_while isspace s)))
    as (w & Hr & Hw).
  exists u, (rev w). split; [|split; [exact Hu|]].
  - unfold strip, lstrip, rstrip.
    rewrite <- rev_app_distr, <- Hr, rev_involutive. exact Hs.
  - rewrite all_space_rev. exact Hw.
Qed.

(** A string between two runs of white space is what [strip] returns. *)
Lemma strip_sandwich (u t v : str) :
  all_space u = true -> all_space v = true ->
  starts_clean t -> ends_clean t ->
  strip (u ++ t ++ v) = t.
Proof.
  intros Hu Hv Hs He. unfold strip, lstrip, rstrip.
  rewrite (drop_while_app_all isspace u _ Hu).
  destruct t as [|c t'].
  - simpl. now rewrite (drop_while_all _ _ Hv).
  - simpl in Hs. cbn [app drop_while]. rewrite Hs.
    change (c :: t' ++ v) with ((c :: t') ++ v).
    rewrite rev_app_distr.
    rewrite drop_while_app_all by (fold (all_space (rev v));
                                   now rewrite all_space_rev).
    rewrite (drop_while_clean _ He). apply rev_involutive.
Qed.

Lemma ends_clean_app (x t : str) :
  t <> [] -> ends_clean t -> ends_clean (x ++ t).
Proof.
  unfold ends_clean. rewrite rev_app_distr. intros Ht He.
  destruct (rev t) as [|c r] eqn:E; [|exact He].
  apply (f_equal (@rev ascii)) in E. rewrite rev_involutive in E.
  simpl in E. contradiction.
Qed.

Lemma strip_prefix_app (p y : str) : strip_prefix p (p ++ y) = Some y.
Proof.
  induction p as [|c p IH]; simpl; [now destruct y|].
  now rewrite Ascii.eqb_refl.
Qed.

Lemma after_number_colon_digits (ds z : str) :
  ds <> [] -> all_decimal ds = true ->
  after_number_colon (ds ++ COLON :: z) = Some z.
Proof.
  intros Hne Hd. destruct ds as [|d ds']; [congruence|].
  unfold all_decimal in Hd. simpl in Hd.
  apply andb_true_iff in Hd as [Hd Hds].
  unfold after_number_colon. cbn [app]. rewrite Hd.
  rewrite (drop_while_app_all isdecimal ds' _ Hds). reflexivity.
Qed.

Lemma labelled_line_unlabelled (ds z : str) :
  ds <> [] -> all_decimal ds = true ->
  strip_question_label (unbold (lit "Question " ++ ds ++ COLON :: z)) = z.
Proof.
  intros Hne Hd.
  assert (Hu : unbold (lit "Question " ++ ds ++ COLON :: z)
               = lit "Question " ++ ds ++ COLON :: z) by reflexivity.
  rewrite Hu. unfold strip_question_label.
  rewrite strip_prefix_app.
  now rewrite (after_number_colon_digits ds z Hne Hd).
Qed.

(** [strip] of a text that starts with a stripped word keeps the word
    and strips what follows it on the right. *)
Lemma strip_after_word (P r : str) :
  P <> [] -> starts_clean P -> ends_clean P ->
  exists z, strip (P ++ r) = P ++ z /\ strip z = strip r.
Proof.
  intros HP Hs He.
  destruct (strip_decompose r) as (u & v & Hr & Hu & Hv).
  destruct (strip_fixed_clean (strip r) (strip_strip r)) as [Ts Te].
  destruct (strip r) as [|c t] eqn:E.
  - exists []. split; [|reflexivity].
    assert (Hw : all_space (u ++ v) = true).
    { unfold all_space in *. rewrite forallb_app. now rewrite Hu, Hv. }
    rewrite Hr. simpl app at 2. rewrite app_nil_r.
    apply (strip_sandwich [] P (u ++ v) eq_refl Hw Hs He).
  - exists (u ++ c :: t). split.
    + assert (Hshape : P ++ r = [] ++ (P ++ u ++ c :: t) ++ v).
      { rewrite Hr at 1. simpl. rewrite <- !app_assoc. reflexivity. }
      rewrite Hshape. apply strip_sandwich; [reflexivity|exact Hv| |].
      * destruct P; [congruence|exact Hs].
      * rewrite app_assoc. apply ends_clean_app; [discriminate|exact Te].
    + replace (u ++ c :: t) with (u ++ (c :: t) ++ [])
        by now rewrite app_nil_r.
      now apply strip_sandwich.
Qed.

(** X18: a first line that starts with the label "Question N:" gives, as
    question text, what follows the label, stripped of white space and of
    asterisks at its ends; the label and the number are not part of the
    question text. *)
Theorem question_label_is_removed :
  forall (ds rest : str),
    ds <> [] -> all_decimal ds = true ->
    clean_question (lit "Question " ++ ds ++ COLON :: rest)
    = strip (strip_chars STAR (strip rest)).
Proof.
  intros ds rest Hne Hd. unfold clean_question.
  assert (Hshape : forall z,
            lit "Question " ++ ds ++ COLON :: z
            = (lit "Question " ++ ds ++ [COLON]) ++ z).
  { intro z. rewrite <- !app_assoc. reflexivity. }
  destruct (strip_after_word (lit "Question " ++ ds ++ [COLON]) rest)
    as (z & Hz & Hzr).
  - discriminate.
  - reflexivity.
  - rewrite app_assoc. apply ends_clean_app; [discriminate|reflexivity].
  - rewrite Hshape, Hz, <- Hshape.
    rewrite (labelled_line_unlabelled ds z Hne Hd). now rewrite Hzr.
Qed.

(** The first line of the example text. *)
Lemma question_label_is_removed_witness :
  clean_question (lit "Question " ++ lit "1" ++ COLON :: lit " What is 2+2?")
  = strip (strip_chars STAR (strip (lit " What is 2+2?"))).
Proof.
  apply (question_label_is_removed (lit "1") (lit " What is 2+2?")).
  - discriminate.
  - reflexivity.
Defined.

Lemma strip_stripped_word (P : str) :
  starts_clean P -> ends_clean P -> strip P = P.
Proof. apply strip_clean. Qed.

(** X19: a first line wrapped in two pairs of asterisks gives, as
    question text, what lies between them, with a label "Question N:"
    removed from it and stripped of white space and asterisks at its
    ends. *)
Theorem bold_wrapping_is_removed :
  forall (mid : str),
    has_newline mid = false ->
    clean_question ([STAR; STAR] ++ mid ++ [STAR; STAR])
    = strip (strip_chars STAR (strip (strip_question_label mid))).
Proof.
  intros mid Hnl. unfold clean_question.
  assert (Hstrip : strip ([STAR; STAR] ++ mid ++ [STAR; STAR])
                   = [STAR; STAR] ++ mid ++ [STAR; STAR]).
  { apply strip_stripped_word; [reflexivity|].
    rewrite app_assoc. apply ends_clean_app; [discriminate|reflexivity]. }
  rewrite Hstrip.
  assert (Hun : unbold ([STAR; STAR] ++ mid ++ [STAR; STAR]) = mid).
  { unfold unbold. cbn [app]. rewrite Ascii.eqb_refl. cbn [andb].
    rewrite rev_app_distr. cbn [rev app].
    change (Ascii.eqb STAR NL) with false. cbv iota.
    unfold chop_bold_end. rewrite rev_app_distr. cbn [rev app].
    rewrite Ascii.eqb_refl. cbn [andb]. rewrite rev_involutive, Hnl.
    apply app_nil_r. }
  now rewrite Hun.
Qed.

(** A bold question line that also carries a label. *)
Lemma bold_wrapping_is_removed_witness :
  clean_question ([STAR; STAR] ++ lit "Question 3: Bold?" ++ [STAR; STAR])
  = strip (strip_chars STAR (strip (strip_question_label
                                      (lit "Question 3: Bold?")))).
Proof.
  apply (bold_wrapping_is_removed (lit "Question 3: Bold?")).
  reflexivity.
Defined.

(** ** White space around the text and around a line *)

Lemma strip_pad (u s v : str) :
  all_space u = true -> all_space v = true ->
  strip (u ++ s ++ v) = strip s.
Proof.
  intros Hu Hv.
  destruct (strip_decompose s) as (u' & v' & Hs & Hu' & Hv').
  destruct (strip_fixed_clean (strip s) (strip_strip s)) as [Ts Te].
  assert (Hshape : u ++ s ++ v = (u ++ u') ++ strip s ++ (v' ++ v)).
  { rewrite Hs at 1. now rewrite <- !app_assoc. }
  rewrite Hshape.
  apply strip_sandwich; auto; unfold all_space in *;
    rewrite forallb_app; [now rewrite Hu, Hu'|now rewrite Hv', Hv].
Qed.

(** X20: white space around the whole text and around a line changes
    nothing: a text padded with blank lines or spaces parses to the same
    result, failures included, and a padded line is scanned as the line
    itself. *)
Theorem surrounding_white_space_is_ignored :
  forall (u v : str),
    all_space u = true -> all_space v = true ->
    (forall (text : str) (q_sep : QSep) (opt_regex : OptRegex)
            (answer_prefix explanation_prefix : str),
       parse_guided_format (u ++ text ++ v) q_sep opt_regex answer_prefix
                           explanation_prefix
       = parse_guided_format text q_sep opt_regex answer_prefix
                             explanation_prefix) /\
    (forall (opt_regex : OptRegex) (answer_prefix explanation_prefix : str)
            (st : Scan) (raw : str),
       scan_line opt_regex answer_prefix explanation_prefix st
                 (u ++ raw ++ v)
       = scan_line opt_regex answer_prefix explanation_prefix st raw).
Proof.
  intros u v Hu Hv. split.
  - intros t q_sep opt_regex ap ep. unfold parse_guided_format, parse_body.
    now rewrite (strip_pad u t v Hu Hv).
  - intros opt_regex ap ep st raw. unfold scan_line.
    now rewrite (strip_pad u raw v Hu Hv).
Qed.

(** The example text between two blank lines, and an indented line. *)
Lemma surrounding_white_space_is_ignored_witness :
  parse_guided_format ([NL; NL] ++ Example.text ++ lit "  ") QuestionLabel
    LowerParen (lit "Answer:") (lit "Explanation:")
  = parse_guided_format Example.text QuestionLabel LowerParen
      (lit "Answer:") (lit "Explanation:").
Proof.
  apply (proj1 (surrounding_white_space_is_ignored [NL; NL] (lit "  ")
                  eq_refl eq_refl)).
Defined.

(** * The serializer with the refusals of [lxml] *)

(** ** The raising function and the tree *)

Lemma digits_compatible (d : Decimal.uint) :
  Lxml.xml_compatible
    (lit (DecimalString.NilEmpty.string_of_uint d)) = true.
Proof.
  unfold Lxml.xml_compatible, lit.
  induction d; simpl; try rewrite IHd; reflexivity.
Qed.

Lemma str_of_nat_compatible (n : nat) :
  Lxml.xml_compatible (str_of_nat n) = true.
Proof.
  unfold str_of_nat, DecimalString.NilZero.string_of_uint.
  destruct (Nat.to_uint n) eqn:E; try (rewrite <- E; apply digits_compatible).
  reflexivity.
Qed.

Lemma xml_compatible_app (a b : str) :
  Lxml.xml_compatible (a ++ b)
  = Lxml.xml_compatible a && Lxml.xml_compatible b.
Proof. apply forallb_app. Qed.

Lemma accept_numbered (prefix : str) (n : nat) :
  Lxml.xml_compatible prefix = true ->
  Lxml.accept (prefix ++ str_of_nat n) = Ok (prefix ++ str_of_nat n).
Proof.
  intro H. unfold Lxml.accept.
  now rewrite xml_compatible_app, H, str_of_nat_compatible.
Qed.

(** The handler of the [try] is never entered. *)
Lemma varequal_text_eq (q : Question) :
  Lxml.varequal_text q = lit "option" ++ str_of_nat (correct_option_id q).
Proof.
  unfold Lxml.varequal_text. now rewrite accept_numbered.
Qed.

Lemma response_label_refines (option_id : nat) (option : str) :
  Lxml.response_label option_id option =
  if Lxml.xml_compatible (clean_option option)
  then Ok (response_label option_id option)
  else Raise Lxml.msg_not_xml.
Proof.
  unfold Lxml.response_label. rewrite accept_numbered by reflexivity.
  unfold Lxml.bind at 1. unfold Lxml.accept.
  destruct (Lxml.xml_compatible (clean_option option)); reflexivity.
Qed.

Lemma response_labels_refine (opts : list str) :
  forall start,
    Lxml.for_each (fun p => Lxml.response_label (fst p) (snd p))
                  (enumerate start opts) =
    if forallb (fun o => Lxml.xml_compatible (clean_option o)) opts
    then Ok (map (fun p => response_label (fst p) (snd p))
                 (enumerate start opts))
    else Raise Lxml.msg_not_xml.
Proof.
  induction opts as [|o r IH]; intro s; [reflexivity|].
  cbn [enumerate Lxml.for_each forallb map fst snd].
  rewrite response_label_refines.
  destruct (Lxml.xml_compatible (clean_option o)); [|reflexivity].
  cbn [Lxml.bind andb]. rewrite IH.
  destruct (forallb _ r); reflexivity.
Qed.

(** The raising body returns the tree of [Qti.item] when the strings of
    the record and the points are accepted, and raises otherwise. *)
Lemma item_refines (i : nat) (q : Question) (points : str) :
  Lxml.item i q points =
  if Lxml.record_accepted q && Lxml.xml_compatible points
  then Ok (item i q points)
  else Raise Lxml.msg_not_xml.
Proof.
  unfold Lxml.item, Lxml.record_accepted.
  rewrite !accept_numbered by reflexivity. cbn [Lxml.bind].
  rewrite response_labels_refine, varequal_text_eq. unfold Lxml.accept.
  destruct (Lxml.xml_compatible (question q)); [|reflexivity].
  cbn [Lxml.bind andb].
  destruct (forallb _ (options q)); [|reflexivity].
  cbn [Lxml.bind andb].
  destruct (Lxml.xml_compatible points);
    [|cbn [Lxml.bind]; now rewrite andb_false_r].
  cbn [Lxml.bind]. rewrite andb_true_r.
  destruct (Lxml.xml_compatible (explanation q)); reflexivity.
Qed.

Lemma items_refine (points : str) (questions : list Question) :
  forall start,
    Lxml.for_each (fun p => Lxml.item (fst p) (snd p) points)
                  (enumerate start questions) =
    if forallb (fun q => Lxml.record_accepted q
                         && Lxml.xml_compatible points) questions
    then Ok (map (fun p => item (fst p) (snd p) points)
                 (enumerate start questions))
    else Raise Lxml.msg_not_xml.
Proof.
  induction questions as [|q r IH]; intro s; [reflexivity|].
  cbn [enumerate Lxml.for_each forallb map fst snd].
  rewrite item_refines.
  destruct (Lxml.record_accepted q && Lxml.xml_compatible points);
    [|reflexivity].
  cbn [Lxml.bind andb]. rewrite IH.
  destruct (forallb _ r); reflexivity.
Qed.

Lemma create_qti_bytes_refines (questions : list Question) (points : str) :
  Lxml.create_qti_bytes questions points =
  if forallb (fun q => Lxml.record_accepted q
                       && Lxml.xml_compatible points) questions
  then Ok (create_qti_bytes questions points)
  else Raise Lxml.msg_not_xml.
Proof.
  unfold Lxml.create_qti_bytes. rewrite items_refine.
  destruct (forallb _ questions); reflexivity.
Qed.

(** A document that is returned is the tree of [Qti.create_qti_bytes],
    and every record in it was accepted. *)
Lemma create_qti_bytes_ok (questions : list Question) (points : str)
  (root : Element) :
  Lxml.create_qti_bytes questions points = Ok root ->
  root = create_qti_bytes questions points /\
  forall q, In q questions ->
    Lxml.record_accepted q = true /\ Lxml.xml_compatible points = true.
Proof.
  rewrite create_qti_bytes_refines.
  destruct (forallb _ questions) eqn:E; [|discriminate].
  intros [= <-]. split; [reflexivity|].
  intros q Hq. rewrite forallb_forall in E.
  now apply andb_true_iff, E.
Qed.


Lemma item_ok (i : nat) (q : Question) (points : str) (it : Element) :
  Lxml.item i q points = Ok it -> it = item i q points.
Proof.
  rewrite item_refines.
  destruct (Lxml.record_accepted q && Lxml.xml_compatible points);
    [|discriminate].
  now intros [= <-].
Qed.

(** ** The marker rule, on the characters of the option *)

Lemma marker_letter_existsb (c : ascii) :
  is_marker_char c = existsb (Ascii.eqb c) (lit "ABCDabcd123456789").
Proof. each_char c. Qed.

Lemma marker_letter_iff (c : ascii) :
  In c (lit "ABCDabcd123456789") <-> is_marker_char c = true.
Proof.
  rewrite marker_letter_existsb, existsb_exists. split.
  - intro H. exists c. split; [exact H|apply Ascii.eqb_refl].
  - intros (x & Hx & E). apply Ascii.eqb_eq in E. now subst x.
Qed.

Lemma marker_run_forallb (run : str) :
  Forall (fun c => In c (lit "ABCDabcd123456789")) run <->
  forallb is_marker_char run = true.
Proof.
  rewrite forallb_forall, Forall_forall.
  split; intros H c Hc; apply marker_letter_iff; now apply H.
Qed.

(** A run of marker characters and a parenthesis at the start are cut off
    together with the white space after them. *)
Lemma strip_marker_run (run rest : str) :
  run <> [] ->
  Forall (fun c => In c (lit "ABCDabcd123456789")) run ->
  strip_marker (run ++ ")"%char :: rest) = lstrip rest.
Proof.
  intros Hne Hrun. apply marker_run_forallb in Hrun.
  destruct run as [|c run']; [congruence|]. simpl in Hrun.
  apply andb_true_iff in Hrun as [Hc Hrun].
  unfold strip_marker. cbn [app]. rewrite Hc.
  rewrite (drop_while_app_all is_marker_char run' _ Hrun).
  reflexivity.
Qed.

(** Without such a start the option is left as it is. *)
Lemma strip_marker_no_run (opt : str) :
  (forall run rest,
     run <> [] ->
     Forall (fun c => In c (lit "ABCDabcd123456789")) run ->
     opt <> run ++ ")"%char :: rest) ->
  strip_marker opt = opt.
Proof.
  intro H. unfold strip_marker.
  destruct opt as [|c r]; [reflexivity|].
  destruct (is_marker_char c) eqn:Hc; [|reflexivity].
  destruct (drop_while_prefix is_marker_char r) as (u & Hr & Hu).
  destruct (drop_while is_marker_char r) as [|p r']; [reflexivity|].
  destruct (Ascii.eqb p RPAREN) eqn:Hp; [|reflexivity].
  apply Ascii.eqb_eq in Hp. subst p. exfalso.
  assert (E : c :: r = (c :: u) ++ ")"%char :: r').
  { rewrite Hr at 1. reflexivity. }
  assert (F : Forall (fun x => In x (lit "ABCDabcd123456789")) (c :: u)).
  { apply marker_run_forallb. simpl. now rewrite Hc, Hu. }
  exact (H (c :: u) r' ltac:(discriminate) F E).
Qed.

(** ** The messages, letter by letter *)

Lemma msg_failed_options (idx : nat) (qt : str) :
  msg_failed (msg_options idx qt) =
  lit "Guided format parsing failed: Not enough options in question #"
  ++ str_of_nat idx ++ lit ": " ++ "034"%char :: qt ++ ["034"%char].
Proof. reflexivity. Qed.

Lemma msg_failed_answer (idx : nat) (qt : str) :
  msg_failed (msg_answer idx qt) =
  lit "Guided format parsing failed: Missing answer in question #"
  ++ str_of_nat idx ++ lit ": " ++ "034"%char :: qt ++ ["034"%char].
Proof. reflexivity. Qed.

Lemma msg_failed_explanation (idx : nat) (qt : str) :
  msg_failed (msg_explanation idx qt) =
  lit "Guided format parsing failed: Missing explanation in question #"
  ++ str_of_nat idx ++ lit ": " ++ "034"%char :: qt ++ ["034"%char].
Proof. reflexivity. Qed.

Lemma msg_failed_no_questions :
  msg_failed msg_no_questions =
  lit "Guided format parsing failed: No valid questions found. Check your format settings.".
Proof. reflexivity. Qed.

(** The message of a violating block, written out. *)
Lemma violation_message_written (opt_regex : OptRegex)
  (answer_prefix explanation_prefix : str) (idx : nat) (b msg : str) :
  violation_message opt_regex answer_prefix explanation_prefix idx b msg ->
  let st := block_scan opt_regex answer_prefix explanation_prefix b in
  (length (s_options st) < 2 /\
   msg_failed msg =
   lit "Guided format parsing failed: Not enough options in question #"
   ++ str_of_nat idx ++ lit ": "
   ++ "034"%char :: block_question_text b ++ ["034"%char])
  \/ (2 <= length (s_options st) /\ falsy (s_answer st) = true /\
      msg_failed msg =
      lit "Guided format parsing failed: Missing answer in question #"
      ++ str_of_nat idx ++ lit ": "
      ++ "034"%char :: block_question_text b ++ ["034"%char])
  \/ (2 <= length (s_options st) /\ falsy (s_answer st) = false /\
      falsy (s_explanation st) = true /\
      msg_failed msg =
      lit "Guided format parsing failed: Missing explanation in question #"
      ++ str_of_nat idx ++ lit ": "
      ++ "034"%char :: block_question_text b ++ ["034"%char]).
Proof.
  intros [[H ->]|[(H1 & H2 & ->)|(H1 & H2 & H3 & ->)]] st.
  - left. split; [exact H|apply msg_failed_options].
  - right; left.
    split; [exact H1|split; [exact H2|apply msg_failed_answer]].
  - right; right.
    split; [exact H1|split; [exact H2|split; [exact H3|]]].
    apply msg_failed_explanation.
Qed.

(** ** Failures of the parser, with their messages *)

(** C3: when the split yields a block that is not blank and has fewer
    than two options, or no answer, or no explanation, the parse raises
    and returns no list of records.  The message is that of the first
    such block: after the prefix of the handler it says which requirement
    is broken, then "in question #", the 1-based position of the block in
    decimal, a colon and the question text of the block between double
    quotes. *)
Theorem invalid_block_fails_whole_parse :
  forall (text : str) (q_sep : QSep) (opt_regex : OptRegex)
         (answer_prefix explanation_prefix : str),
    (exists b, In b (re_split q_sep (strip text)) /\
               violates opt_regex answer_prefix explanation_prefix b = true) ->
    exists i b,
      nth_error (re_split q_sep (strip text)) i = Some b /\
      violates opt_regex answer_prefix explanation_prefix b = true /\
      (forall j b', j < i ->
         nth_error (re_split q_sep (strip text)) j = Some b' ->
         violates opt_regex answer_prefix explanation_prefix b' = false) /\
      ((length (s_options (block_scan opt_regex answer_prefix
                                      explanation_prefix b)) < 2 /\
        parse_guided_format text q_sep opt_regex answer_prefix
                            explanation_prefix =
        Raise (lit "Guided format parsing failed: Not enough options in question #"
               ++ str_of_nat (i + 1) ++ lit ": "
               ++ "034"%char :: block_question_text b ++ ["034"%char]))
       \/
       (2 <= length (s_options (block_scan opt_regex answer_prefix
                                           explanation_prefix b)) /\
        falsy (s_answer (block_scan opt_regex answer_prefix
                                    explanation_prefix b)) = true /\
        parse_guided_format text q_sep opt_regex answer_prefix
                            explanation_prefix =
        Raise (lit "Guided format parsing failed: Missing answer in question #"
               ++ str_of_nat (i + 1) ++ lit ": "
               ++ "034"%char :: block_question_text b ++ ["034"%char]))
       \/
       (2 <= length (s_options (block_scan opt_regex answer_prefix
                                           explanation_prefix b)) /\
        falsy (s_answer (block_scan opt_regex answer_prefix
                                    explanation_prefix b)) = false /\
        falsy (s_explanation (block_scan opt_regex answer_prefix
                                         explanation_prefix b)) = true /\
        parse_guided_format text q_sep opt_regex answer_prefix
                            explanation_prefix =
        Raise (lit "Guided format parsing failed: Missing explanation in question #"
               ++ str_of_nat (i + 1) ++ lit ": "
               ++ "034"%char :: block_question_text b ++ ["034"%char]))).
Proof.
  intros text q_sep opt_regex ap ep H.
  destruct (parse_blocks_first_violation opt_regex ap ep _ 1 [] H)
    as (i & b & msg & Hn & Hv & Hf & Hm & Hp).
  exists i, b. split; [exact Hn|]. split; [exact Hv|]. split; [exact Hf|].
  assert (P : parse_guided_format text q_sep opt_regex ap ep
              = Raise (msg_failed msg)).
  { unfold parse_guided_format, parse_body. now rewrite Hp. }
  rewrite P. rewrite (Nat.add_comm 1 i) in Hm.
  destruct (violation_message_written _ _ _ _ _ _ Hm)
    as [[H1 E]|[(H1 & H2 & E)|(H1 & H2 & H3 & E)]]; rewrite E.
  - left. now split.
  - right; left. now repeat split.
  - right; right. now repeat split.
Qed.

(** The example text read with the upper-case option marker: its one
    block has no option line, so the parse raises for question 1. *)
Lemma invalid_block_fails_whole_parse_witness :
  exists i b,
    nth_error (re_split QuestionLabel (strip Example.text)) i = Some b /\
    violates UpperParen (lit "Answer:") (lit "Explanation:") b = true /\
    (forall j b', j < i ->
       nth_error (re_split QuestionLabel (strip Example.text)) j = Some b' ->
       violates UpperParen (lit "Answer:") (lit "Explanation:") b' = false) /\
    ((length (s_options (block_scan UpperParen (lit "Answer:")
                                    (lit "Explanation:") b)) < 2 /\
      parse_guided_format Example.text QuestionLabel UpperParen
        (lit "Answer:") (lit "Explanation:") =
      Raise (lit "Guided format parsing failed: Not enough options in question #"
             ++ str_of_nat (i + 1) ++ lit ": "
             ++ "034"%char :: block_question_text b ++ ["034"%char]))
     \/
     (2 <= length (s_options (block_scan UpperParen (lit "Answer:")
                                         (lit "Explanation:") b)) /\
      falsy (s_answer (block_scan UpperParen (lit "Answer:")
                                  (lit "Explanation:") b)) = true /\
      parse_guided_format Example.text QuestionLabel UpperParen
        (lit "Answer:") (lit "Explanation:") =
      Raise (lit "Guided format parsing failed: Missing answer in question #"
             ++ str_of_nat (i + 1) ++ lit ": "
             ++ "034"%char :: block_question_text b ++ ["034"%char]))
     \/
     (2 <= length (s_options (block_scan UpperParen (lit "Answer:")
                                         (lit "Explanation:") b)) /\
      falsy (s_answer (block_scan UpperParen (lit "Answer:")
                                  (lit "Explanation:") b)) = false /\
      falsy (s_explanation (block_scan UpperParen (lit "Answer:")
                                       (lit "Explanation:") b)) = true /\
      parse_guided_format Example.text QuestionLabel UpperParen
        (lit "Answer:") (lit "Explanation:") =
      Raise (lit "Guided format parsing failed: Missing explanation in question #"
             ++ str_of_nat (i + 1) ++ lit ": "
             ++ "034"%char :: block_question_text b ++ ["034"%char]))).
Proof.
  apply (invalid_block_fails_whole_parse Example.text QuestionLabel
           UpperParen (lit "Answer:") (lit "Explanation:")).
  exists Example.text. split.
  - left. vm_compute. reflexivity.
  - vm_compute. reflexivity.
Defined.

(** X1: the parser raises the structural message "No valid questions
    found" exactly when the text is blank.  A text with a character that
    is not white space either parses, to a list that is not empty, or is
    rejected with one of the three per-question messages, which names a
    position among the blocks of the split and a question text. *)
Theorem structural_failure_iff_blank_text :
  forall (text : str) (q_sep : QSep) (opt_regex : OptRegex)
         (answer_prefix explanation_prefix : str),
    (parse_guided_format text q_sep opt_regex answer_prefix
                         explanation_prefix
     = Raise (lit "Guided format parsing failed: No valid questions found. Check your format settings.")
     <-> strip text = []) /\
    (strip text <> [] ->
     (exists questions,
        parse_guided_format text q_sep opt_regex answer_prefix
                            explanation_prefix = Ok questions /\
        questions <> [])
     \/
     (exists i qt cause,
        i < length (re_split q_sep (strip text)) /\
        (cause = lit "Not enough options" \/ cause = lit "Missing answer"
         \/ cause = lit "Missing explanation") /\
        parse_guided_format text q_sep opt_regex answer_prefix
                            explanation_prefix =
        Raise (lit "Guided format parsing failed: " ++ cause
               ++ lit " in question #" ++ str_of_nat (i + 1) ++ lit ": "
               ++ "034"%char :: qt ++ ["034"%char]))).
Proof.
  intros text q_sep opt_regex ap ep. split.
  - rewrite <- msg_failed_no_questions, parse_structural_iff_loop.
    apply loop_empty_iff_blank_text.
  - intro Hne.
    destruct (parse_guided_format text q_sep opt_regex ap ep)
      as [qs|e] eqn:P.
    + left. exists qs. split; [reflexivity|].
      apply parse_ok_inv in P as (_ & _ & ->).
      destruct (re_split q_sep (strip text)) eqn:S;
        [exfalso; exact (re_split_not_nil _ _ S)|discriminate].
    + right. unfold parse_guided_format, parse_body in P.
      destruct (parse_blocks opt_regex ap ep (re_split q_sep (strip text))
                             1 []) as [[|q qs]|e0] eqn:E; try discriminate.
      * exfalso. apply Hne.
        now apply (loop_empty_iff_blank_text text q_sep opt_regex ap ep).
      * injection P as <-.
        pose proof (parse_blocks_raise_violation _ _ _ _ _ _ _ E) as Hv.
        destruct (parse_blocks_first_violation opt_regex ap ep _ 1 [] Hv)
          as (i & b & msg & Hn & _ & _ & Hm & Hp).
        assert (e0 = msg) by congruence. subst e0.
        exists i, (block_question_text b).
        assert (Hi : i < length (re_split q_sep (strip text))).
        { apply nth_error_Some. congruence. }
        rewrite (Nat.add_comm 1 i) in Hm.
        destruct (violation_message_written _ _ _ _ _ _ Hm)
          as [[_ M]|[(_ & _ & M)|(_ & _ & _ & M)]]; rewrite M.
        -- exists (lit "Not enough options").
           split; [exact Hi|split; [now left|reflexivity]].
        -- exists (lit "Missing answer").
           split; [exact Hi|split; [now right; left|reflexivity]].
        -- exists (lit "Missing explanation").
           split; [exact Hi|split; [now right; right|reflexivity]].
Qed.

(** The empty text, and the example text read once with the lower-case
    marker and once with the upper-case marker. *)
Lemma structural_failure_iff_blank_text_witness :
  parse_guided_format [] Bold LowerParen (lit "Answer:")
    (lit "Explanation:")
  = Raise (lit "Guided format parsing failed: No valid questions found. Check your format settings.")
  /\
  ((exists questions,
      parse_guided_format Example.text QuestionLabel UpperParen
        (lit "Answer:") (lit "Explanation:") = Ok questions /\
      questions <> [])
   \/
   (exists i qt cause,
      i < length (re_split QuestionLabel (strip Example.text)) /\
      (cause = lit "Not enough options" \/ cause = lit "Missing answer"
       \/ cause = lit "Missing explanation") /\
      parse_guided_format Example.text QuestionLabel UpperParen
        (lit "Answer:") (lit "Explanation:") =
      Raise (lit "Guided format parsing failed: " ++ cause
             ++ lit " in question #" ++ str_of_nat (i + 1) ++ lit ": "
             ++ "034"%char :: qt ++ ["034"%char]))).
Proof.
  split.
  - apply (proj1 (structural_failure_iff_blank_text [] Bold LowerParen
                    (lit "Answer:") (lit "Explanation:"))).
    reflexivity.
  - apply (proj2 (structural_failure_iff_blank_text Example.text
                    QuestionLabel UpperParen (lit "Answer:")
                    (lit "Explanation:"))).
    vm_compute. discriminate.
Defined.

(** X2: every failure of the parser has one of two causes.  Either the
    text is blank and the message is the structural one, or some block
    breaks a requirement and the message is the one of the first such
    block: the prefix of the handler, the requirement that block breaks
    first, its 1-based position in decimal and its question text between
    double quotes. *)
Theorem parse_failure_has_a_cause :
  forall (text : str) (q_sep : QSep) (opt_regex : OptRegex)
         (answer_prefix explanation_prefix e : str),
    parse_guided_format text q_sep opt_regex answer_prefix
                        explanation_prefix = Raise e ->
    (strip text = [] /\
     e = lit "Guided format parsing failed: No valid questions found. Check your format settings.")
    \/ exists i b,
         nth_error (re_split q_sep (strip text)) i = Some b /\
         violates opt_regex answer_prefix explanation_prefix b = true /\
         (forall j b', j < i ->
            nth_error (re_split q_sep (strip text)) j = Some b' ->
            violates opt_regex answer_prefix explanation_prefix b' = false) /\
         ((length (s_options (block_scan opt_regex answer_prefix
                                         explanation_prefix b)) < 2 /\
           e = lit "Guided format parsing failed: Not enough options in question #"
               ++ str_of_nat (i + 1) ++ lit ": "
               ++ "034"%char :: block_question_text b ++ ["034"%char])
          \/
          (2 <= length (s_options (block_scan opt_regex answer_prefix
                                              explanation_prefix b)) /\
           falsy (s_answer (block_scan opt_regex answer_prefix
                                       explanation_prefix b)) = true /\
           e = lit "Guided format parsing failed: Missing answer in question #"
               ++ str_of_nat (i + 1) ++ lit ": "
               ++ "034"%char :: block_question_text b ++ ["034"%char])
          \/
          (2 <= length (s_options (block_scan opt_regex answer_prefix
                                              explanation_prefix b)) /\
           falsy (s_answer (block_scan opt_regex answer_prefix
                                       explanation_prefix b)) = false /\
           falsy (s_explanation (block_scan opt_regex answer_prefix
                                            explanation_prefix b)) = true /\
           e = lit "Guided format parsing failed: Missing explanation in question #"
               ++ str_of_nat (i + 1) ++ lit ": "
               ++ "034"%char :: block_question_text b ++ ["034"%char])).
Proof.
  intros text q_sep opt_regex ap ep e H.
  unfold parse_guided_format, parse_body in H.
  destruct (parse_blocks opt_regex ap ep (re_split q_sep (strip text)) 1 [])
    as [[|q qs]|e0] eqn:E; [| discriminate |].
  - left. injection H as <-. split; [|apply msg_failed_no_questions].
    now apply (loop_empty_iff_blank_text text q_sep opt_regex ap ep).
  - right. injection H as <-.
    pose proof (parse_blocks_raise_violation _ _ _ _ _ _ _ E) as Hv.
    destruct (parse_blocks_first_violation opt_regex ap ep _ 1 [] Hv)
      as (i & b & msg & Hn & Hb & Hf & Hm & Hp).
    assert (e0 = msg) by congruence. subst e0.
    exists i, b. split; [exact Hn|]. split; [exact Hb|]. split; [exact Hf|].
    rewrite (Nat.add_comm 1 i) in Hm.
    exact (violation_message_written _ _ _ _ _ _ Hm).
Qed.

(** Both causes: the empty text, and the example text read with the
    upper-case option marker, whose one block has no option line. *)
Lemma parse_failure_has_a_cause_witness :
  ((strip [] = [] /\
    msg_failed msg_no_questions
    = lit "Guided format parsing failed: No valid questions found. Check your format settings.")
   \/ exists i b,
        nth_error (re_split Bold (strip [])) i = Some b /\
        violates UpperParen (lit "Answer:") (lit "Explanation:") b = true /\
        (forall j b', j < i ->
           nth_error (re_split Bold (strip [])) j = Some b' ->
           violates UpperParen (lit "Answer:") (lit "Explanation:") b'
           = false) /\
        ((length (s_options (block_scan UpperParen (lit "Answer:")
                                        (lit "Explanation:") b)) < 2 /\
          msg_failed msg_no_questions
          = lit "Guided format parsing failed: Not enough options in question #"
            ++ str_of_nat (i + 1) ++ lit ": "
            ++ "034"%char :: block_question_text b ++ ["034"%char])
         \/
         (2 <= length (s_options (block_scan UpperParen (lit "Answer:")
                                             (lit "Explanation:") b)) /\
          falsy (s_answer (block_scan UpperParen (lit "Answer:")
                                      (lit "Explanation:") b)) = true /\
          msg_failed msg_no_questions
          = lit "Guided format parsing failed: Missing answer in question #"
            ++ str_of_nat (i + 1) ++ lit ": "
            ++ "034"%char :: block_question_text b ++ ["034"%char])
         \/
         (2 <= length (s_options (block_scan UpperParen (lit "Answer:")
                                             (lit "Explanation:") b)) /\
          falsy (s_answer (block_scan UpperParen (lit "Answer:")
                                      (lit "Explanation:") b)) = false /\
          falsy (s_explanation (block_scan UpperParen (lit "Answer:")
                                           (lit "Explanation:") b)) = true /\
          msg_failed msg_no_questions
          = lit "Guided format parsing failed: Missing explanation in question #"
            ++ str_of_nat (i + 1) ++ lit ": "
            ++ "034"%char :: block_question_text b ++ ["034"%char])))
  /\
  (exists i b,
     nth_error (re_split QuestionLabel (strip Example.text)) i = Some b /\
     violates UpperParen (lit "Answer:") (lit "Explanation:") b = true /\
     length (s_options (block_scan UpperParen (lit "Answer:")
                                   (lit "Explanation:") b)) < 2 /\
     msg_failed (msg_options 1 (lit "What is 2+2?"))
     = lit "Guided format parsing failed: Not enough options in question #"
       ++ str_of_nat (i + 1) ++ lit ": "
       ++ "034"%char :: block_question_text b ++ ["034"%char]).
Proof.
  split.
  - apply (parse_failure_has_a_cause [] Bold UpperParen (lit "Answer:")
             (lit "Explanation:") (msg_failed msg_no_questions)).
    vm_compute. reflexivity.
  - destruct (parse_failure_has_a_cause Example.text QuestionLabel
                UpperParen (lit "Answer:") (lit "Explanation:")
                (msg_failed (msg_options 1 (lit "What is 2+2?"))))
      as [[Hblank _]|(i & b & Hn & Hv & _ & H)].
    + vm_compute. reflexivity.
    + vm_compute in Hblank. discriminate Hblank.
    + exists i, b. split; [exact Hn|]. split; [exact Hv|].
      destruct i as [|i]; [|destruct i; discriminate Hn].
      injection Hn as <-.
      destruct H as [H|[(H & _)|(H & _)]]; [exact H| |];
        vm_compute in H; exfalso; lia.
Defined.

(** ** The serializer *)



(** C9: in a document the serializer returns, when the answer of a
    record equals the normalized text of several options, the varequal
    of the "correct" condition names the lowest of their 1-based
    positions, which is the value of [correct_option_id]. *)
Theorem correct_condition_names_first_match :
  forall (questions : list Question) (points : str) (root : Element)
         (i : nat) (q : Question) (k : nat) (opt : str),
    Lxml.create_qti_bytes questions points = Ok root ->
    nth_error questions i = Some q ->
    nth_error (options q) k = Some opt ->
    lower (strip (answer q)) = lower (strip (strip_marker opt)) ->
    exists m o it,
      m <= k /\
      nth_error (options q) m = Some o /\
      lower (strip (answer q)) = lower (strip (strip_marker o)) /\
      (forall j x, j < m -> nth_error (options q) j = Some x ->
         lower (strip (answer q)) <> lower (strip (strip_marker x))) /\
      correct_option_id q = m + 1 /\
      nth_error (findall root (lit "item")) i = Some it /\
      correct_varequal_text it = Some (lit "option" ++ str_of_nat (m + 1)).
Proof.
  intros questions points root i q k opt Hroot Hq Hn He.
  apply create_qti_bytes_ok in Hroot as [-> _].
  apply answer_matches_eq in He.
  destruct (first_position (answer_matches q) (options q) k opt Hn He)
    as (m & o & Hm & Hnm & Hc & Hf).
  assert (Hid : correct_option_id q = m + 1).
  { unfold correct_option_id. rewrite Nat.add_comm.
    now apply (next_index_first _ _ 1 1 m o). }
  exists m, o, (item i q points).
  split; [exact Hm|]. split; [exact Hnm|].
  split; [now apply answer_matches_eq|]. split.
  - intros j x Hj Hx. apply answer_matches_neq. now apply (Hf j).
  - split; [exact Hid|]. split; [now apply nth_item|].
    rewrite correct_varequal_text_item. now rewrite Hid.
Qed.

(** The answer of [Example.twice] equals its second and third options;
    the second is named. *)
Lemma correct_condition_names_first_match_witness :
  exists m o it,
    m <= 2 /\
    nth_error (options Example.twice) m = Some o /\
    lower (strip (answer Example.twice)) = lower (strip (strip_marker o)) /\
    (forall j x, j < m -> nth_error (options Example.twice) j = Some x ->
       lower (strip (answer Example.twice))
       <> lower (strip (strip_marker x))) /\
    correct_option_id Example.twice = m + 1 /\
    nth_error (findall (create_qti_bytes [Example.twice] (lit "1.0"))
                       (lit "item")) 0 = Some it /\
    correct_varequal_text it = Some (lit "option" ++ str_of_nat (m + 1)).
Proof.
  apply (correct_condition_names_first_match [Example.twice] (lit "1.0")
           (create_qti_bytes [Example.twice] (lit "1.0")) 0
           Example.twice 2 (lit "c) yes")).
  - vm_compute. reflexivity.
  - reflexivity.
  - reflexivity.
  - vm_compute. reflexivity.
Defined.

(** C8: in a document the serializer returns, the record at 1-based
    position [i + 1] has its item at the same position among the items;
    that item is the only one with identifier "q{i+1}", its title is
    "Question {i+1}", and its response choices are as many as the
    record's options, in their order.  The choice at position [j + 1]
    has identifier "option{j+1}" and holds the marker-stripped text of
    the option at that position: when the option starts with a run of
    the characters A-D, a-d, 1-9 followed by a closing parenthesis, the
    text is what follows the parenthesis, stripped; otherwise it is the
    option, stripped. *)
Theorem item_mirrors_record :
  forall (questions : list Question) (points : str) (root : Element)
         (i : nat) (q : Question),
    Lxml.create_qti_bytes questions points = Ok root ->
    nth_error questions i = Some q ->
    exists it,
      nth_error (findall root (lit "item")) i = Some it /\
      tag it = lit "item" /\
      get it (lit "ident") = Some (lit "q" ++ str_of_nat (i + 1)) /\
      get it (lit "title") = Some (lit "Question " ++ str_of_nat (i + 1)) /\
      (forall i' it',
         nth_error (findall root (lit "item")) i' = Some it' ->
         get it' (lit "ident") = Some (lit "q" ++ str_of_nat (i + 1)) ->
         i' = i) /\
      length (response_labels it) = length (options q) /\
      (forall j opt,
         nth_error (options q) j = Some opt ->
         exists rl,
           nth_error (response_labels it) j = Some rl /\
           tag rl = lit "response_label" /\
           get rl (lit "ident") = Some (lit "option" ++ str_of_nat (j + 1)) /\
           material_text rl = Some (strip (strip_marker opt)) /\
           (forall run rest,
              run <> [] ->
              Forall (fun c => In c (lit "ABCDabcd123456789")) run ->
              opt = run ++ ")"%char :: rest ->
              material_text rl = Some (strip rest)) /\
           ((forall run rest,
               run <> [] ->
               Forall (fun c => In c (lit "ABCDabcd123456789")) run ->
               opt <> run ++ ")"%char :: rest) ->
            material_text rl = Some (strip opt))).
Proof.
  intros questions points root i q Hroot Hq.
  apply create_qti_bytes_ok in Hroot as [-> _].
  exists (item i q points).
  split; [now apply nth_item|].
  split; [reflexivity|]. split; [reflexivity|]. split; [reflexivity|].
  split; [|split].
  - intros i' it' Hn Hid.
    apply nth_item_inv in Hn as (q' & _ & ->).
    change (get (item i' q' points) (lit "ident"))
      with (Some (lit "q" ++ str_of_nat (i' + 1))) in Hid.
    injection Hid as Hid. apply str_of_nat_inj in Hid. lia.
  - rewrite response_labels_item, length_map. apply enumerate_length.
  - intros j opt Hj. exists (response_label (j + 1) opt).
    split; [now apply nth_response_label|].
    split; [reflexivity|]. split; [reflexivity|].
    assert (Hm : material_text (response_label (j + 1) opt)
                 = Some (strip (strip_marker opt))) by reflexivity.
    split; [exact Hm|]. split.
    + intros run rest Hne Hrun ->. rewrite Hm.
      rewrite (strip_marker_run run rest Hne Hrun).
      now rewrite strip_lstrip.
    + intro Hno. rewrite Hm. now rewrite (strip_marker_no_run opt Hno).
Qed.

(** The item of the example record. *)
Lemma item_mirrors_record_witness :
  exists it,
    nth_error (findall (create_qti_bytes [Example.record] (lit "1.0"))
                       (lit "item")) 0 = Some it /\
    tag it = lit "item" /\
    get it (lit "ident") = Some (lit "q" ++ str_of_nat (0 + 1)) /\
    get it (lit "title") = Some (lit "Question " ++ str_of_nat (0 + 1)) /\
    (forall i' it',
       nth_error (findall (create_qti_bytes [Example.record] (lit "1.0"))
                          (lit "item")) i' = Some it' ->
       get it' (lit "ident") = Some (lit "q" ++ str_of_nat (0 + 1)) ->
       i' = 0) /\
    length (response_labels it) = length (options Example.record) /\
    (forall j opt,
       nth_error (options Example.record) j = Some opt ->
       exists rl,
         nth_error (response_labels it) j = Some rl /\
         tag rl = lit "response_label" /\
         get rl (lit "ident") = Some (lit "option" ++ str_of_nat (j + 1)) /\
         material_text rl = Some (strip (strip_marker opt)) /\
         (forall run rest,
            run <> [] ->
            Forall (fun c => In c (lit "ABCDabcd123456789")) run ->
            opt = run ++ ")"%char :: rest ->
            material_text rl = Some (strip rest)) /\
         ((forall run rest,
             run <> [] ->
             Forall (fun c => In c (lit "ABCDabcd123456789")) run ->
             opt <> run ++ ")"%char :: rest) ->
          material_text rl = Some (strip opt))).
Proof.
  apply (item_mirrors_record [Example.record] (lit "1.0")
           (create_qti_bytes [Example.record] (lit "1.0")) 0
           Example.record).
  - vm_compute. reflexivity.
  - reflexivity.
Defined.

(** C10: for a record returned by a successful parse, which has two
    options or more, the value [k] of [correct_option_id] lies between 1
    and the number of options; in a document the serializer returns, the
    varequal of the "correct" condition of the record's item reads
    "option{k}", and the same item has a response choice with that
    identifier. *)
Theorem correct_condition_names_existing_choice :
  forall (text : str) (q_sep : QSep) (opt_regex : OptRegex)
         (answer_prefix explanation_prefix : str)
         (questions : list Question) (points : str) (root : Element)
         (i : nat) (q : Question),
    parse_guided_format text q_sep opt_regex answer_prefix
                        explanation_prefix = Ok questions ->
    Lxml.create_qti_bytes questions points = Ok root ->
    nth_error questions i = Some q ->
    2 <= length (options q) /\
    1 <= correct_option_id q <= length (options q) /\
    exists it rl,
      nth_error (findall root (lit "item")) i = Some it /\
      correct_varequal_text it
      = Some (lit "option" ++ str_of_nat (correct_option_id q)) /\
      nth_error (response_labels it) (correct_option_id q - 1) = Some rl /\
      get rl (lit "ident")
      = Some (lit "option" ++ str_of_nat (correct_option_id q)).
Proof.
  intros text q_sep opt_regex ap ep questions points root i q Hp Hroot Hq.
  apply create_qti_bytes_ok in Hroot as [-> _].
  assert (H2 : 2 <= length (options q)).
  { unfold parse_guided_format, parse_body in Hp.
    destruct (parse_blocks opt_regex ap ep (re_split q_sep (strip text)) 1 [])
      as [out|e] eqn:E; [|discriminate].
    assert (out = questions) by (destruct out; congruence). subst out.
    apply parse_blocks_records in E as (added & -> & Hall).
    simpl in Hq. apply nth_error_In in Hq.
    rewrite Forall_forall in Hall. now apply Hall in Hq. }
  split; [exact H2|].
  assert (Hne : options q <> []).
  { destruct (options q); simpl in *; [lia|discriminate]. }
  pose proof (correct_option_id_range q Hne) as Hk.
  split; [exact Hk|].
  destruct (nth_error (options q) (correct_option_id q - 1)) as [opt|] eqn:Ho.
  - exists (item i q points), (response_label (correct_option_id q) opt).
    split; [now apply nth_item|].
    split; [apply correct_varequal_text_item|].
    split; [|reflexivity].
    rewrite (nth_response_label i q points _ opt Ho).
    do 2 f_equal. lia.
  - apply nth_error_None in Ho. lia.
Qed.

(** The record parsed from the example text. *)
Lemma correct_condition_names_existing_choice_witness :
  2 <= length (options Example.record) /\
  1 <= correct_option_id Example.record <= length (options Example.record) /\
  exists it rl,
    nth_error (findall (create_qti_bytes [Example.record] (lit "1.0"))
                       (lit "item")) 0 = Some it /\
    correct_varequal_text it
    = Some (lit "option" ++ str_of_nat (correct_option_id Example.record)) /\
    nth_error (response_labels it) (correct_option_id Example.record - 1)
    = Some rl /\
    get rl (lit "ident")
    = Some (lit "option" ++ str_of_nat (correct_option_id Example.record)).
Proof.
  apply (correct_condition_names_existing_choice Example.text QuestionLabel
           LowerParen (lit "Answer:") (lit "Explanation:")
           [Example.record] (lit "1.0")
           (create_qti_bytes [Example.record] (lit "1.0")) 0
           Example.record).
  - vm_compute. reflexivity.
  - vm_compute. reflexivity.
  - reflexivity.
Defined.

(** ** Shape of a returned document *)

(** X10: after a successful parse, a document that the serializer
    returns has one child of the root per block of the split text, every
    child is an item, and there is at least one. *)
Theorem one_item_per_block :
  forall (text : str) (q_sep : QSep) (opt_regex : OptRegex)
         (answer_prefix explanation_prefix : str)
         (questions : list Question) (points : str) (root : Element),
    parse_guided_format text q_sep opt_regex answer_prefix
                        explanation_prefix = Ok questions ->
    Lxml.create_qti_bytes questions points = Ok root ->
    children root = findall root (lit "item") /\
    length (findall root (lit "item"))
    = length (re_split q_sep (strip text)) /\
    1 <= length (findall root (lit "item")).
Proof.
  intros text q_sep opt_regex ap ep questions points root H Hroot.
  apply create_qti_bytes_ok in Hroot as [-> _].
  apply parse_ok_inv in H as (_ & _ & ->).
  rewrite items_of_create_qti_bytes. split; [reflexivity|].
  rewrite length_map, enumerate_length, length_map. split; [reflexivity|].
  destruct (re_split q_sep (strip text)) eqn:S;
    [exfalso; exact (re_split_not_nil _ _ S)|simpl; lia].
Qed.

(** The example text is one block and gives one item. *)
Lemma one_item_per_block_witness :
  children (create_qti_bytes [Example.record] (lit "1.0"))
  = findall (create_qti_bytes [Example.record] (lit "1.0")) (lit "item") /\
  length (findall (create_qti_bytes [Example.record] (lit "1.0"))
                  (lit "item"))
  = length (re_split QuestionLabel (strip Example.text)) /\
  1 <= length (findall (create_qti_bytes [Example.record] (lit "1.0"))
                       (lit "item")).
Proof.
  apply (one_item_per_block Example.text QuestionLabel LowerParen
           (lit "Answer:") (lit "Explanation:") [Example.record]
           (lit "1.0") (create_qti_bytes [Example.record] (lit "1.0"))).
  - vm_compute. reflexivity.
  - vm_compute. reflexivity.
Defined.

(** X12: in a document the serializer returns, the wiring of the item of
    every record is complete.  The question text is the material of the
    presentation; there are exactly two conditions, the first sets the
    score to the points and the second, whose condition is empty, sets it
    to 0; and the feedback link of each condition names exactly one
    feedback block of the same item, which holds the record's
    explanation. *)
Theorem feedback_links_resolve :
  forall (questions : list Question) (points : str) (root : Element)
         (i : nat) (q : Question),
    Lxml.create_qti_bytes questions points = Ok root ->
    nth_error questions i = Some q ->
    exists it rc_correct rc_incorrect,
      nth_error (findall root (lit "item")) i = Some it /\
      question_material it = Some (question q) /\
      respconditions it = [rc_correct; rc_incorrect] /\
      setvar_text rc_correct = Some points /\
      setvar_text rc_incorrect = Some (lit "0") /\
      (find_child rc_incorrect (lit "conditionvar") >>= fun cv =>
       Some (children cv)) = Some [] /\
      forall rc, In rc (respconditions it) ->
        exists ref fb,
          linkrefid_of rc = Some ref /\
          itemfeedbacks it ref = [fb] /\
          material_text fb = Some (explanation q).
Proof.
  intros questions points root i q Hroot Hq.
  apply create_qti_bytes_ok in Hroot as [-> _].
  exists (item i q points). do 2 eexists.
  split; [now apply nth_item|].
  split; [reflexivity|]. split; [reflexivity|].
  split; [reflexivity|]. split; [reflexivity|]. split; [reflexivity|].
  intros rc [<-|[<-|[]]]; do 2 eexists;
    (split; [reflexivity|split; reflexivity]).
Qed.

(** The item of the example record. *)
Lemma feedback_links_resolve_witness :
  exists it rc_correct rc_incorrect,
    nth_error (findall (create_qti_bytes [Example.record] (lit "1.0"))
                       (lit "item")) 0 = Some it /\
    question_material it = Some (question Example.record) /\
    respconditions it = [rc_correct; rc_incorrect] /\
    setvar_text rc_correct = Some (lit "1.0") /\
    setvar_text rc_incorrect = Some (lit "0") /\
    (find_child rc_incorrect (lit "conditionvar") >>= fun cv =>
     Some (children cv)) = Some [] /\
    forall rc, In rc (respconditions it) ->
      exists ref fb,
        linkrefid_of rc = Some ref /\
        itemfeedbacks it ref = [fb] /\
        material_text fb = Some (explanation Example.record).
Proof.
  apply (feedback_links_resolve [Example.record] (lit "1.0")
           (create_qti_bytes [Example.record] (lit "1.0")) 0
           Example.record).
  - vm_compute. reflexivity.
  - reflexivity.
Defined.

(** ** From the parser to the serializer *)

(** X13: when the last line of a block that assigns the answer is a
    starred option line, the record holds that option, its answer is the
    option's displayed text, and [correct_option_id] is the position of
    an option with the same displayed text up to case, at or before the
    starred one; when the loop body of the serializer returns the item
    of that record, its "correct" condition names that position.  The
    fallback to the first option is not what decides the index. *)
Theorem starred_option_is_named_correct :
  forall (opt_regex : OptRegex) (answer_prefix explanation_prefix : str)
         (idx : nat) (block first : str) (pre post : list str) (l : str)
         (q : Question),
    block_lines block = first :: pre ++ l :: post ->
    is_option_line opt_regex l = true ->
    is_starred l = true ->
    (forall x, In x post ->
       sets_answer opt_regex answer_prefix explanation_prefix x = false) ->
    parse_block opt_regex answer_prefix explanation_prefix idx block
      = Ok (Some q) ->
    answer q = clean_option (clean_of l) /\
    exists k m o,
      nth_error (options q) k = Some (clean_of l) /\
      m <= k /\
      nth_error (options q) m = Some o /\
      lower (clean_option o) = lower (clean_option (clean_of l)) /\
      correct_option_id q = m + 1 /\
      forall (i : nat) (points : str) (it : Element),
        Lxml.item i q points = Ok it ->
        correct_varequal_text it
        = Some (lit "option" ++ str_of_nat (m + 1)).
Proof.
  intros opt_regex ap ep idx block first pre post l q
         Hlines Hopt Hstar Hpost Hq.
  assert (Hsets : sets_answer opt_regex ap ep l = true).
  { unfold sets_answer. now rewrite Hopt, Hstar. }
  assert (Hans : answer q = clean_option (clean_of l)).
  { rewrite (parse_block_answer _ _ _ _ _ _ Hq).
    unfold block_scan. rewrite Hlines. simpl tl.
    rewrite (scan_lines_last_assignment _ _ ep pre post l Hsets Hpost).
    simpl. unfold assigned_answer.
    assert (Hna : is_answer_line opt_regex ap l = false).
    { unfold is_answer_line. unfold is_option_line in Hopt.
      apply andb_true_iff in Hopt as [_ ->]. simpl.
      now rewrite andb_false_r. }
    now rewrite Hna, Hopt. }
  split; [exact Hans|].
  assert (Hin : In (clean_of l) (options q)).
  { apply parse_block_is_record_of in Hq as (-> & _).
    unfold record_of, block_scan, scan_lines. simpl.
    rewrite fold_scan_options, Hlines. simpl.
    apply in_map, filter_In. split; [apply in_or_app; right; now left|].
    unfold adds_option. now rewrite Hopt. }
  apply In_nth_error in Hin as [k Hk].
  assert (Hmatch : answer_matches q (clean_of l) = true).
  { unfold answer_matches. rewrite Hans. unfold clean_option at 1.
    rewrite strip_strip. apply str_eqb_eq. reflexivity. }
  destruct (correct_option_id_match q k _ Hk Hmatch)
    as (m & o & Hm & Hnm & Hco & Hid).
  exists k, m, o.
  split; [exact Hk|]. split; [exact Hm|]. split; [exact Hnm|]. split.
  - apply answer_matches_eq in Hco. rewrite Hans in Hco.
    unfold clean_option in Hco at 1. rewrite strip_strip in Hco.
    symmetry. exact Hco.
  - split; [exact Hid|]. intros i points it Hit.
    apply item_ok in Hit. subst it.
    rewrite correct_varequal_text_item, Hid. reflexivity.
Qed.

(** The example text with its answer line removed: the star decides. *)
Lemma starred_option_is_named_correct_witness :
  answer (mkQuestion (lit "What is 2+2?") [lit "a) 3"; lit "b) 4"]
                     (lit "4") (lit "Sum."))
  = clean_option (clean_of (lit "*b) 4")) /\
  exists k m o,
    nth_error [lit "a) 3"; lit "b) 4"] k = Some (clean_of (lit "*b) 4")) /\
    m <= k /\
    nth_error [lit "a) 3"; lit "b) 4"] m = Some o /\
    lower (clean_option o) = lower (clean_option (clean_of (lit "*b) 4"))) /\
    correct_option_id (mkQuestion (lit "What is 2+2?")
                         [lit "a) 3"; lit "b) 4"] (lit "4") (lit "Sum."))
    = m + 1 /\
    forall (i : nat) (points : str) (it : Element),
      Lxml.item i (mkQuestion (lit "What is 2+2?") [lit "a) 3"; lit "b) 4"]
                              (lit "4") (lit "Sum.")) points = Ok it ->
      correct_varequal_text it = Some (lit "option" ++ str_of_nat (m + 1)).
Proof.
  apply (starred_option_is_named_correct LowerParen (lit "Answer:")
           (lit "Explanation:") 1
           (Example.join_lines [lit "Question 1: What is 2+2?"; lit "a) 3";
                                lit "*b) 4"; lit "Explanation: Sum."])
           (lit "Question 1: What is 2+2?")
           [lit "a) 3"] [lit "Explanation: Sum."] (lit "*b) 4")
           (mkQuestion (lit "What is 2+2?") [lit "a) 3"; lit "b) 4"]
                       (lit "4") (lit "Sum."))).
  - vm_compute. reflexivity.
  - vm_compute. reflexivity.
  - vm_compute. reflexivity.
  - intros x [<-|[]]. vm_compute. reflexivity.
  - vm_compute. reflexivity.
Defined.

(** ** When the serializer raises *)

Lemma forallb_over_map {A B : Type} (f : B -> bool) (g : A -> B)
  (l : list A) :
  forallb f (map g l) = forallb (fun x => f (g x)) l.
Proof.
  induction l as [|x r IH]; simpl; [reflexivity|]. now rewrite IH.
Qed.

(** X21: the serializer returns the tree of the records exactly when
    [lxml] accepts, for every record, the question text, the text shown
    for each option and the explanation, and accepts the points; on any
    other non-empty list it raises the [ValueError] of [lxml] and returns
    no document.  For the empty list it returns the bare root whatever
    the points.  The answer of a record is never handed to [lxml]:
    replacing the answers changes nothing to whether a document is
    returned. *)
Theorem serializer_raises_on_refused_strings :
  forall (questions : list Question) (points : str),
    Lxml.create_qti_bytes questions points =
    (if forallb (fun q =>
                   Lxml.xml_compatible (question q)
                   && forallb (fun o => Lxml.xml_compatible
                                          (strip (strip_marker o)))
                              (options q)
                   && Lxml.xml_compatible (explanation q)
                   && Lxml.xml_compatible points) questions
     then Ok (create_qti_bytes questions points)
     else Raise (lit "All strings must be XML compatible: Unicode or ASCII, no NULL bytes or control characters"))
    /\
    Lxml.create_qti_bytes [] points
    = Ok (Elem (lit "questestinterop") [] None []) /\
    forall (new_answer : Question -> str),
      (exists root, Lxml.create_qti_bytes questions points = Ok root) <->
      (exists root,
         Lxml.create_qti_bytes
           (map (fun q => with_answer q (new_answer q)) questions) points
         = Ok root).
Proof.
  intros questions points. split; [apply create_qti_bytes_refines|].
  split; [reflexivity|]. intro new_answer.
  rewrite !create_qti_bytes_refines, forallb_over_map.
  change (fun x => Lxml.record_accepted (with_answer x (new_answer x))
                   && Lxml.xml_compatible points)
    with (fun x => Lxml.record_accepted x && Lxml.xml_compatible points).
  destruct (forallb _ questions); split; intros [root H];
    try discriminate; eexists; reflexivity.
Qed.
